(** * express-elasticsearch-session: the ESStore session store

    A shallow embedding of [src/index.js] (the variant with the expiry
    timers: constructor, [pSid], [get], [set], [destroy],
    [initialSessionTimeout], [sessionTimeout], [touch]) and the properties
    of the session lifecycle that the specification states about it.

    Conventions of the embedding.
    - The clock, the TTL and the numbers of a payload are integers ([Z]):
      epoch milliseconds and durations stay far below 2^53, where double
      arithmetic is exact.  What [ToNumber] makes of a string is a double
      ([number]), rounded as JavaScript rounds it.
    - Session payloads are JSON values ([value]); an absent property
      ([undefined]) is [None].
    - [this.timeouts] is a finite map from storage keys to timer handles.
      Keys are assumed not to clash with members of [Object.prototype].
    - A timer keeps the delay given to [setTimeout] and the time at which
      it was armed.  A run may fire any live timer at any step, so what is
      proved of all runs does not depend on when the runtime fires it.
    - The program is asynchronous: a client call only records a request
      together with the closure that will receive the reply ([kont]); the
      closure runs in a later step ([Reply]).  Every effect is appended to
      [trace] in program order. *)

From stdpp Require Import gmap strings list fin_maps pretty.
From Stdlib Require Import ZArith Lia Ascii String.

Local Open Scope string_scope.
Local Open Scope Z_scope.
Local Open Scope list_scope.

(** ** JSON values and objects *)

#[local] Set Warnings "-register-all".

Inductive value :=
| JNull
| JBool (b : bool)
| JNum (z : Z)
| JStr (s : string)
| JArr (items : list value)
| JObj (fields : list (string * value)).

(** An object is the list of its own properties, in insertion order. *)
Abbreviation obj := (list (string * value)).

(** [o[k]]: [None] is [undefined]. *)
Fixpoint get_field (o : obj) (k : string) : option value :=
  match o with
  | [] => None
  | (k', v) :: rest => if String.eqb k' k then Some v else get_field rest k
  end.

(** [o[k] = v]: an existing property keeps its place, a new one is added
    at the end. *)
Fixpoint set_field (o : obj) (k : string) (v : value) : obj :=
  match o with
  | [] => [(k, v)]
  | (k', v') :: rest =>
      if String.eqb k' k then (k', v) :: rest
      else (k', v') :: set_field rest k v
  end.

(** *** Numbers

    What [ToNumber] makes of a value: [NaN], an infinity, an integer
    ([Exact]), or a double that is no integer ([Frac m e], the number
    [m * 2^e] with [e < 0] and [m] odd).  Strings are the UTF-8 bytes of
    the JavaScript string. *)

Inductive number :=
| NaN
| Exact (z : Z)
| Frac (m e : Z)
| PosInf
| NegInf.

Definition number_opp (x : number) : number :=
  match x with
  | NaN => NaN
  | Exact z => Exact (- z)
  | Frac m e => Frac (- m) e
  | PosInf => NegInf
  | NegInf => PosInf
  end.

(** [m * 2^q], in lowest terms. *)
Definition dyadic (m q : Z) : number :=
  if 0 <=? q then Exact (m * 2 ^ q)
  else
    let g := Z.gcd m (2 ^ (- q)) in
    if g =? 2 ^ (- q) then Exact (m / g)
    else Frac (m / g) (q + Z.log2 g).

(** The double nearest to [n / d], ties to even, for [0 <= n] and
    [0 < d]: 53 bits of precision, exponents down to -1074, and infinity
    from [2^1024] on. *)
Definition round_ratio (n d : Z) : number :=
  if n =? 0 then Exact 0
  else
    let l := Z.log2 n - Z.log2 d in
    let ge := if 0 <=? l then d * 2 ^ l <=? n else d <=? n * 2 ^ (- l) in
    let E := if ge then l else l - 1 in
    let q := Z.max (E - 52) (-1074) in
    let num := if 0 <=? q then n else n * 2 ^ (- q) in
    let den := if 0 <=? q then d * 2 ^ q else d in
    let M := num / den in
    let rem := num mod den in
    let M' := if (den <? 2 * rem) || ((2 * rem =? den) && Z.odd M)
              then M + 1 else M in
    if 2 ^ 1024 <=? (if 0 <=? q then M' * 2 ^ q else 0) then PosInf
    else dyadic M' q.

Definition round_signed (n d : Z) : number :=
  if n <? 0 then number_opp (round_ratio (- n) d) else round_ratio n d.

(** [x > c] for an integer [c]. *)
Definition number_gt (x : number) (c : Z) : bool :=
  match x with
  | NaN => false
  | Exact z => c <? z
  | Frac m e => c * 2 ^ (- e) <? m
  | PosInf => true
  | NegInf => false
  end.

(** [a - b > c] as JavaScript computes it, for integers [a] and [c]:
    false when [b] is NaN; exact on integers; when [b] is no integer the
    difference is rounded to a double before the comparison. *)
Definition minus_gt (a : Z) (b : number) (c : Z) : bool :=
  match b with
  | NaN => false
  | Exact n => c <? a - n
  | Frac m e => number_gt (round_signed (a * 2 ^ (- e) - m) (2 ^ (- e))) c
  | PosInf => false
  | NegInf => true
  end.

(** *** StringToNumber *)

Definition byte (c : ascii) : Z := Z.of_N (N_of_ascii c).

(** One character of white space or line end at the head of the string:
    TAB, LF, VT, FF, CR, SP, and in UTF-8 U+00A0, U+1680, U+2000 to
    U+200A, U+2028, U+2029, U+202F, U+205F, U+3000, U+FEFF. *)
Definition strip_space (s : string) : option string :=
  match s with
  | String a r1 =>
      let x := byte a in
      if (x =? 9) || (x =? 10) || (x =? 11) || (x =? 12) || (x =? 13)
         || (x =? 32)
      then Some r1
      else
        match r1 with
        | String b r2 =>
            let y := byte b in
            if (x =? 194) && (y =? 160) then Some r2
            else
              match r2 with
              | String c r3 =>
                  let z := byte c in
                  if ((x =? 225) && (y =? 154) && (z =? 128))
                     || ((x =? 226) && (y =? 128)
                         && (((128 <=? z) && (z <=? 138)) || (z =? 168)
                             || (z =? 169) || (z =? 175)))
                     || ((x =? 226) && (y =? 129) && (z =? 159))
                     || ((x =? 227) && (y =? 128) && (z =? 128))
                     || ((x =? 239) && (y =? 187) && (z =? 191))
                  then Some r3
                  else None
              | EmptyString => None
              end
        | EmptyString => None
        end
  | EmptyString => None
  end.

Fixpoint skip_spaces (fuel : nat) (s : string) : string :=
  match fuel with
  | O => s
  | S f =>
      match strip_space s with
      | Some r => skip_spaces f r
      | None => s
      end
  end.

Definition trim_start (s : string) : string :=
  skip_spaces (String.length s) s.

(** Only white space is left. *)
Definition only_spaces (s : string) : bool :=
  match trim_start s with
  | EmptyString => true
  | _ => false
  end.

(** The value of a digit in the given base. *)
Definition digit_of (base : Z) (c : ascii) : option Z :=
  let x := byte c in
  let v := if (48 <=? x) && (x <=? 57) then x - 48
           else if (97 <=? x) && (x <=? 102) then x - 87
           else if (65 <=? x) && (x <=? 70) then x - 55
           else base in
  if v <? base then Some v else None.

(** The longest run of digits at the head: its value on top of [acc], its
    length on top of [count], and the rest. *)
Fixpoint take_digits (base : Z) (s : string) (acc : Z) (count : nat)
    : Z * nat * string :=
  match s with
  | String c r =>
      match digit_of base c with
      | Some v => take_digits base r (base * acc + v) (S count)
      | None => (acc, count, s)
      end
  | EmptyString => (acc, count, s)
  end.

Fixpoint strip_prefix (p s : string) : option string :=
  match p, s with
  | EmptyString, _ => Some s
  | String a p', String b s' =>
      if Ascii.eqb a b then strip_prefix p' s' else None
  | String _ _, EmptyString => None
  end.

(** [0x], [0o] and [0b] integers. *)
Definition parse_radix (s : string) : option Z :=
  match s with
  | String "0" (String c r) =>
      let x := byte c in
      let base := if (x =? 120) || (x =? 88) then 16
                  else if (x =? 111) || (x =? 79) then 8
                  else if (x =? 98) || (x =? 66) then 2
                  else 0 in
      if base =? 0 then None
      else
        match take_digits base r 0 0 with
        | (v, S _, rest) => if only_spaces rest then Some v else None
        | (_, O, _) => None
        end
  | _ => None
  end.

(** The double for [m * 10^x], where [m] was written with [k] digits. *)
Definition decimal_value (m x : Z) (k : nat) : number :=
  if m =? 0 then Exact 0
  else if 400 <? x then PosInf
  else if x + Z.of_nat k <? -400 then Exact 0
  else if 0 <=? x then round_ratio (m * 10 ^ x) 1
  else round_ratio m (10 ^ (- x)).

(** An unsigned decimal literal, followed by white space only:
    [Infinity], or digits with an optional fraction and an optional
    exponent. *)
Definition parse_decimal (s : string) : number :=
  match strip_prefix "Infinity" s with
  | Some rest => if only_spaces rest then PosInf else NaN
  | None =>
      let '(i, ci, r1) := take_digits 10 s 0 0 in
      let '(m, cf, r2) :=
        match r1 with
        | String "." r => take_digits 10 r i 0
        | _ => (i, O, r1)
        end in
      match (ci + cf)%nat with
      | O => NaN
      | S _ =>
          let '(x, r3) :=
            match r2 with
            | String c r =>
                if (byte c =? 101) || (byte c =? 69) then
                  let '(neg, rd) :=
                    match r with
                    | String "-" r' => (true, r')
                    | String "+" r' => (false, r')
                    | _ => (false, r)
                    end in
                  match take_digits 10 rd 0 0 with
                  | (v, S _, rest) => (if neg then - v else v, rest)
                  | (_, O, _) => (0, r2)
                  end
                else (0, r2)
            | EmptyString => (0, r2)
            end in
          if only_spaces r3
          then decimal_value m (x - Z.of_nat cf) (ci + cf)
          else NaN
      end
  end.

(** StringToNumber: white space is trimmed, the empty string is 0, a
    radix literal has no sign, a decimal literal may have one. *)
Definition string_to_number (s : string) : number :=
  let t := trim_start s in
  match t with
  | EmptyString => Exact 0
  | String c r =>
      match parse_radix t with
      | Some v => round_ratio v 1
      | None =>
          if byte c =? 45 then number_opp (parse_decimal r)
          else if byte c =? 43 then parse_decimal r
          else parse_decimal t
      end
  end.

(** ToString, for the elements of an array; an array is its elements
    joined by commas, with [null] as the empty string. *)
Fixpoint to_string_value (v : value) : string :=
  match v with
  | JNull => "null"
  | JBool b => if b then "true" else "false"
  | JNum z => pretty z
  | JStr s => s
  | JArr items =>
      (fix join (l : list value) : string :=
         match l with
         | [] => ""
         | x :: rest =>
             (match x with JNull => "" | _ => to_string_value x end)
             +:+ match rest with [] => "" | _ => "," +:+ join rest end
         end) items
  | JObj _ => "[object Object]"
  end.

(** ToNumber of a value: an array goes through its string, an object is
    NaN. *)
Definition to_number_value (v : value) : number :=
  match v with
  | JNull => Exact 0
  | JBool b => Exact (if b then 1 else 0)
  | JNum z => Exact z
  | JStr s => string_to_number s
  | JArr _ => string_to_number (to_string_value v)
  | JObj _ => NaN
  end.

Definition to_number (v : option value) : number :=
  match v with
  | None => NaN
  | Some x => to_number_value x
  end.

(** ** Store configuration *)

Record options := Options {
  host : string;
  index : string;
  typeName : string;
  ttl : Z;
  prefix : string;
  logLevel : string
}.

Definition defaults : options :=
  {| host := "localhost:9200";
     index := "express";
     typeName := "session";
     ttl := 1000 * 60 * 60;
     prefix := "";
     logLevel := "trace" |}.

(** The [options] argument of the constructor: [None] is a key that the
    caller did not give. *)
Record user_options := UserOptions {
  u_host : option string;
  u_index : option string;
  u_typeName : option string;
  u_ttl : option Z;
  u_prefix : option string;
  u_logLevel : option string
}.

(** [util._extend(defaults, options || {})]: every key given overrides the
    default. *)
Definition extend (d : options) (u : user_options) : options :=
  {| host := default (host d) (u_host u);
     index := default (index d) (u_index u);
     typeName := default (typeName d) (u_typeName u);
     ttl := default (ttl d) (u_ttl u);
     prefix := default (prefix d) (u_prefix u);
     logLevel := default (logLevel d) (u_logLevel u) |}.

(** [ESStore.prototype.pSid] *)
Definition pSid (o : options) (sid : string) : string :=
  prefix o +:+ sid.

(** ** The Elasticsearch client, as the store sees it *)

(** Errors that the client hands to a callback. *)
Inductive es_error :=
| NotFound
| NoConnections
| ScriptException.

(** One entry of [r.hits.hits]. *)
Record hit := Hit { _id : string }.

(** [r.hits] of a search reply. *)
Record hits_obj := HitsObj { hits_hits : option (list hit) }.

(** The reply body [r], with the two properties that the store reads;
    [None] is a property that the body does not have. *)
Record body := Body {
  _source : option obj;
  hits : option hits_obj
}.

(** The script of [touch], as written in the source. *)
Definition touch_inline : string :=
  "ctx._source.cookie.expires = Instant.ofEpochMilli(params.now).plusMillis(ctx._source.cookie.originalMaxAge).toString();".

Record script := Script {
  inline : string;
  lang : string;
  params_now : Z
}.

(** The calls on [this.client]; each carries [index], [type] and, but for
    the search, [id]. *)
Inductive request :=
| ClientGet (ix ty id : string)
| ClientIndex (ix ty id : string) (sess : obj)
| ClientDelete (ix ty id : string)
| ClientSearch (ix ty : string)
| ClientUpdate (ix ty id : string) (sc : script).

(** A caller's callback is known by a name; [None] is an argument that is
    not a function. *)
Abbreviation callback := (option string).

(** The closure given to the client with a request. *)
Inductive kont :=
| KGet (cb : callback)
| KSet (cb : callback)
| KDestroy (cb : callback)
| KTouch (cb : callback)
| KScan.

(** Arguments of a callback invocation. *)
Inductive arg :=
| AUndefined
| ANull
| AError (e : es_error)
| AObject (o : obj)
| ABody (r : body).

Definition arg_of_error (e : option es_error) : arg :=
  match e with Some x => AError x | None => AUndefined end.

Definition arg_of_body (r : option body) : arg :=
  match r with Some b => ABody b | None => AUndefined end.

(** ** Timers and the state of the process *)

(** A timer handle is what [setTimeout] returns.  The number only tells
    handles apart: every handle is truthy, as a Timeout object is. *)
Abbreviation handle := nat.

(** A reference to an object of the heap. *)
Abbreviation loc := nat.

(** A live timer of [sessionTimeout]: when it was armed, the delay given to
    [setTimeout], and the [sid] that its closure holds. *)
Record timer := Timer {
  armed_at : Z;
  delay : Z;
  timer_sid : string
}.

Inductive event :=
| EvRequest (q : request) (k : kont)
| EvClearTimeout (h : handle)
| EvSetTimeout (h : handle) (sid : string) (ms : Z)
| EvCallback (f : string) (args : list arg)
| EvConsoleError (e : es_error).

Inductive completion :=
| Normal
| ThrowTypeError.

Record world := World {
  opts : options;                     (* this.options *)
  timeouts : gmap string handle;      (* this.timeouts *)
  clock : Z;                          (* new Date().getTime() *)
  heap : gmap loc obj;                (* the callers' session objects *)
  pending : gmap handle timer;        (* timers armed and neither fired nor cleared *)
  next_handle : handle;
  inflight : list (request * kont);   (* requests that await their reply *)
  docs : gmap string obj;             (* the documents of the index, by id *)
  trace : list event
}.

Definition set_timeouts (m : gmap string handle) (w : world) : world :=
  World (opts w) m (clock w) (heap w) (pending w) (next_handle w)
        (inflight w) (docs w) (trace w).

Definition set_clock (t : Z) (w : world) : world :=
  World (opts w) (timeouts w) t (heap w) (pending w) (next_handle w)
        (inflight w) (docs w) (trace w).

Definition set_heap (m : gmap loc obj) (w : world) : world :=
  World (opts w) (timeouts w) (clock w) m (pending w) (next_handle w)
        (inflight w) (docs w) (trace w).

Definition set_pending (m : gmap handle timer) (w : world) : world :=
  World (opts w) (timeouts w) (clock w) (heap w) m (next_handle w)
        (inflight w) (docs w) (trace w).

Definition set_next_handle (n : handle) (w : world) : world :=
  World (opts w) (timeouts w) (clock w) (heap w) (pending w) n
        (inflight w) (docs w) (trace w).

Definition set_inflight (l : list (request * kont)) (w : world) : world :=
  World (opts w) (timeouts w) (clock w) (heap w) (pending w) (next_handle w)
        l (docs w) (trace w).

Definition set_docs (m : gmap string obj) (w : world) : world :=
  World (opts w) (timeouts w) (clock w) (heap w) (pending w) (next_handle w)
        (inflight w) m (trace w).

Definition emit (ev : event) (w : world) : world :=
  World (opts w) (timeouts w) (clock w) (heap w) (pending w) (next_handle w)
        (inflight w) (docs w) (trace w ++ [ev]).

(** A call [this.client.<op>(params, k)]. *)
Definition send (q : request) (k : kont) (w : world) : world :=
  emit (EvRequest q k) (set_inflight (inflight w ++ [(q, k)]) w).

(** [cb(args)] under the guard [typeof cb === "function"]. *)
Definition invoke (cb : callback) (args : list arg) (w : world) : world :=
  match cb with
  | Some f => emit (EvCallback f args) w
  | None => w
  end.

(** [clearTimeout(h)]: a handle that already fired or was cleared is left
    alone. *)
Definition clearTimeout (h : handle) (w : world) : world :=
  emit (EvClearTimeout h) (set_pending (delete h (pending w)) w).

(** [setTimeout(function () { self.destroy(sid) }, ms)] *)
Definition setTimeout (sid : string) (ms : Z) (w : world) : handle * world :=
  let h := next_handle w in
  (h, emit (EvSetTimeout h sid ms)
        (set_next_handle (S h)
           (set_pending (<[h := Timer (clock w) ms sid]> (pending w)) w))).

(** ** The methods of ESStore *)

(** [ESStore.prototype.sessionTimeout]: clear the timer that
    [this.timeouts] holds for the key, if any, then arm a new one for
    [this.options.ttl] whose closure calls [self.destroy(sid)], and store
    its handle under the key. *)
Definition sessionTimeout (sid : string) (w : world) : world :=
  let key := pSid (opts w) sid in
  let w1 := match timeouts w !! key with
            | Some h => clearTimeout h w
            | None => w
            end in
  let '(h, w2) := setTimeout sid (ttl (opts w1)) w1 in
  set_timeouts (<[key := h]> (timeouts w2)) w2.

(** [ESStore.prototype.get]: the call, and the arrow function that receives
    [(e, r)].  [r._source.timestamp] throws when [r] has no [_source]. *)
Definition get (sid : string) (cb : callback) (w : world) : world :=
  send (ClientGet (index (opts w)) (typeName (opts w)) (pSid (opts w) sid))
       (KGet cb) w.

Definition get_reply (cb : callback) (e : option es_error) (r : option body)
    (w : world) : completion * world :=
  match e, r with
  | Some _, _ => (Normal, invoke cb [] w)
  | None, None => (Normal, invoke cb [] w)
  | None, Some b =>
      match _source b with
      | None => (ThrowTypeError, w)
      | Some src =>
          if minus_gt (clock w) (to_number (get_field src "timestamp"))
                      (ttl (opts w))
          then (Normal, invoke cb [] w)
          else (Normal, invoke cb [ANull; AObject src] w)
      end
  end.

(** [ESStore.prototype.set].  [sess] is a reference; one that names no
    object of the heap stands for [undefined] or [null], on which the
    assignment [sess.timestamp = ...] throws.  The body of the request is
    the object as it is when the call is made. *)
Definition set (sid : string) (sess : loc) (cb : callback) (w : world)
    : completion * world :=
  match heap w !! sess with
  | None => (ThrowTypeError, w)
  | Some o =>
      let o' := set_field o "timestamp" (JNum (clock w)) in
      let w1 := set_heap (<[sess := o']> (heap w)) w in
      (Normal,
       send (ClientIndex (index (opts w1)) (typeName (opts w1))
                         (pSid (opts w1) sid) o')
            (KSet cb) w1)
  end.

Definition set_reply (cb : callback) (e : option es_error) (r : option body)
    (w : world) : world :=
  invoke cb [arg_of_error e] w.

(** [ESStore.prototype.destroy] *)
Definition destroy (sid : string) (cb : callback) (w : world) : world :=
  send (ClientDelete (index (opts w)) (typeName (opts w)) (pSid (opts w) sid))
       (KDestroy cb) w.

Definition destroy_reply (cb : callback) (e : option es_error)
    (r : option body) (w : world) : world :=
  invoke cb [arg_of_error e; arg_of_body r] w.

(** [ESStore.prototype.touch]; [sess] is not read. *)
Definition touch (sid : string) (sess : loc) (cb : callback) (w : world)
    : world :=
  let w1 := sessionTimeout sid w in
  send (ClientUpdate (index (opts w1)) (typeName (opts w1))
                     (pSid (opts w1) sid)
                     (Script touch_inline "painless" (clock w1)))
       (KTouch cb) w1.

Definition touch_reply (cb : callback) (e : option es_error)
    (r : option body) (w : world) : world :=
  invoke cb [arg_of_error e; arg_of_body r] w.

(** [ESStore.prototype.initialSessionTimeout]: the call, and the function
    that receives [(e, r)].  [r.hits.hits] throws when [r] is [undefined]
    or has no [hits]. *)
Definition initialSessionTimeout (w : world) : world :=
  let w1 := set_timeouts ∅ w in
  send (ClientSearch (index (opts w1)) (typeName (opts w1))) KScan w1.

Definition scan_reply (e : option es_error) (r : option body) (w : world)
    : completion * world :=
  let w1 := match e with
            | Some err => emit (EvConsoleError err) w
            | None => w
            end in
  match r with
  | None => (ThrowTypeError, w1)
  | Some b =>
      match hits b with
      | None => (ThrowTypeError, w1)
      | Some ho =>
          match hits_hits ho with
          | Some l =>
              (Normal, foldl (fun acc x => sessionTimeout (_id x) acc) w1 l)
          | None => (Normal, w1)
          end
      end
  end.

(** The constructor, in a process whose clock shows [now], whose heap is
    [hp], whose next timer handle is [n], and against an index that holds
    the documents [d]. *)
Definition ESStore (u : user_options) (now : Z) (hp : gmap loc obj)
    (n : handle) (d : gmap string obj) : world :=
  initialSessionTimeout
    (World (extend defaults u) ∅ now hp ∅ n [] d []).

(** ** The index behind the client

    Elasticsearch is not part of the repository; the store only sees the
    replies [(e, r)] of its client.  To follow a request to its reply the
    development has a model of the index, [es_exec], after section 4.2 of
    the specification.  A request may also meet a [fault]: the client then
    reports that error with no body and the documents stay as they are. *)

Section Elasticsearch.

(** [Instant.toString] of the server, on epoch milliseconds. *)
Variable instant_toString : Z -> string.

(** A reply body with neither [_source] nor [hits]: an acknowledgement or
    an error body. *)
Definition ack : body := Body None None.

(** Modelled from the spec: the partial-update expression
    [expires = now + originalMaxAge] (sections 4.2 and 6) that the server
    evaluates, as the script of [touch] writes it:
    [cookie.expires := toString(ofEpochMilli(now) + cookie.originalMaxAge)].
    [None] when the document has no [cookie] object or no number in
    [cookie.originalMaxAge], on which the script fails. *)
Definition run_touch_script (now : Z) (src : obj) : option obj :=
  match get_field src "cookie" with
  | Some (JObj c) =>
      match get_field c "originalMaxAge" with
      | Some (JNum n) =>
          Some (set_field src "cookie"
                  (JObj (set_field c "expires"
                           (JStr (instant_toString (now + n))))))
      | _ => None
      end
  | _ => None
  end.

(** Modelled from the spec: the external document store (section 4.2).
    A get finds the document or reports not-found; an index is a full
    replace; a delete of an absent id reports not-found; a search lists
    every id; an update runs the script on the stored document. *)
Definition es_exec (d : gmap string obj) (q : request)
    (fault : option es_error)
    : gmap string obj * (option es_error * option body) :=
  match fault with
  | Some err => (d, (Some err, None))
  | None =>
      match q with
      | ClientGet _ _ id =>
          match d !! id with
          | Some src => (d, (None, Some (Body (Some src) None)))
          | None => (d, (Some NotFound, Some ack))
          end
      | ClientIndex _ _ id sess => (<[id := sess]> d, (None, Some ack))
      | ClientDelete _ _ id =>
          match d !! id with
          | Some _ => (delete id d, (None, Some ack))
          | None => (d, (Some NotFound, Some ack))
          end
      | ClientSearch _ _ =>
          (d, (None,
               Some (Body None
                       (Some (HitsObj (Some (Hit <$> (map_to_list d).*1)))))))
      | ClientUpdate _ _ id sc =>
          match d !! id with
          | None => (d, (Some NotFound, Some ack))
          | Some src =>
              if String.eqb (inline sc) touch_inline
              then match run_touch_script (params_now sc) src with
                   | Some src' => (<[id := src']> d, (None, Some ack))
                   | None => (d, (Some ScriptException, Some ack))
                   end
              else (d, (Some ScriptException, Some ack))
          end
      end
  end.

(** ** The event loop *)

(** The closure [k] receives [(e, r)]. *)
Definition deliver (k : kont) (e : option es_error) (r : option body)
    (w : world) : completion * world :=
  match k with
  | KGet cb => get_reply cb e r w
  | KSet cb => (Normal, set_reply cb e r w)
  | KDestroy cb => (Normal, destroy_reply cb e r w)
  | KTouch cb => (Normal, touch_reply cb e r w)
  | KScan => scan_reply e r w
  end.

(** The [i]-th request in flight is answered. *)
Definition reply (i : nat) (fault : option es_error) (w : world)
    : completion * world :=
  match inflight w !! i with
  | None => (Normal, w)
  | Some (q, k) =>
      let '(d', (e, r)) := es_exec (docs w) q fault in
      deliver k e r (set_docs d' (set_inflight (delete i (inflight w)) w))
  end.

(** The timer [h] fires: it leaves the set of live timers and its closure
    runs [self.destroy(sid)]. *)
Definition fire (h : handle) (w : world) : world :=
  match pending w !! h with
  | Some t => destroy (timer_sid t) None (set_pending (delete h (pending w)) w)
  | None => w
  end.

Inductive action :=
| CallGet (sid : string) (cb : callback)
| CallSet (sid : string) (sess : loc) (cb : callback)
| CallDestroy (sid : string) (cb : callback)
| CallTouch (sid : string) (sess : loc) (cb : callback)
| Reply (i : nat) (fault : option es_error)
| Fire (h : handle)
| Tick (ms : nat)
| Assign (l : loc) (k : string) (v : value).

Definition step (a : action) (w : world) : completion * world :=
  match a with
  | CallGet sid cb => (Normal, get sid cb w)
  | CallSet sid sess cb => set sid sess cb w
  | CallDestroy sid cb => (Normal, destroy sid cb w)
  | CallTouch sid sess cb => (Normal, touch sid sess cb w)
  | Reply i fault => reply i fault w
  | Fire h => (Normal, fire h w)
  | Tick ms => (Normal, set_clock (clock w + Z.of_nat ms) w)
  | Assign l k v =>
      match heap w !! l with
      | Some o => (Normal, set_heap (<[l := set_field o k v]> (heap w)) w)
      | None => (ThrowTypeError, w)
      end
  end.

(** A run of the process; a throw ends the step in which it happens and
    the state reached so far stays. *)
Definition run (acts : list action) (w : world) : world :=
  foldl (fun acc a => (step a acc).2) w acts.

(** The states of a store from its construction on. *)
Inductive reachable : world -> Prop :=
| reach_new u now hp n d : reachable (ESStore u now hp n d)
| reach_step a w : reachable w -> reachable (step a w).2.

End Elasticsearch.

(** ** Observations *)

(** The events that [w'] added to the trace of [w]. *)
Definition events_since (w w' : world) : list event :=
  drop (List.length (trace w)) (trace w').

(** A callback invocation whose first argument is an error value. *)
Definition passes_error (ev : event) : bool :=
  match ev with
  | EvCallback _ (AError _ :: _) => true
  | _ => false
  end.

(** The record's [timestamp] is older than now minus TTL.  For a
    timestamp that reads as an integer, as the ones that [set] writes,
    this is the inequality; an infinity is older or younger than every
    time; a timestamp that reads as no number is never older; for one that
    reads as a fraction it is the comparison on doubles of the source. *)
Definition older_than_ttl (w : world) (src : obj) : Prop :=
  match to_number (get_field src "timestamp") with
  | NaN => False
  | Exact ts => ts < clock w - ttl (opts w)
  | Frac m e => minus_gt (clock w) (Frac m e) (ttl (opts w)) = true
  | PosInf => False
  | NegInf => True
  end.

(** The live timers whose closure destroys the record stored under [key]. *)
Definition live_timers (w : world) (key : string) : list (handle * timer) :=
  filter (fun ht => pSid (opts w) (timer_sid ht.2) = key)
         (map_to_list (pending w)).

(** Every live timer is the one that [this.timeouts] holds for its key,
    every handle in [this.timeouts] was given out before the next one, and
    a live handle is in [this.timeouts] under the key of its own timer
    only. *)
Definition timers_tracked (w : world) : Prop :=
  (forall h t, pending w !! h = Some t ->
     timeouts w !! pSid (opts w) (timer_sid t) = Some h) /\
  (forall key h, timeouts w !! key = Some h -> (h < next_handle w)%nat) /\
  (forall key h t, timeouts w !! key = Some h -> pending w !! h = Some t ->
     pSid (opts w) (timer_sid t) = key).

(** [w'] has the timers, the map, the options and the next handle of [w]. *)
Definition same_timers (w w' : world) : Prop :=
  pending w' = pending w /\ timeouts w' = timeouts w /\
  opts w' = opts w /\ next_handle w' = next_handle w.

(** ** A store for the examples

    TTL 1000 ms, no prefix, an empty index, the clock at 0, and one session
    object [{user: 1}] at location 0 of the heap; [prefixed_store] has the
    prefix [sess:] and finds the document [sess:abc] in the index. *)

Definition demo_user : user_options :=
  UserOptions None None None (Some 1000) None None.

Definition demo_heap : gmap loc obj := {[ 0%nat := [("user", JNum 1)] ]}.

Definition demo_store : world := ESStore demo_user 0 demo_heap 0%nat ∅.

Definition prefixed_user : user_options :=
  UserOptions None None None (Some 1000) (Some "sess:") None.

Definition prefixed_store : world :=
  ESStore prefixed_user 0 demo_heap 0%nat {[ "sess:abc" := [("user", JNum 7)] ]}.

(** A stand-in for [Instant.toString] in the examples; the theorems hold for
    every printer. *)
Definition demo_toString (ms : Z) : string :=
  if ms =? 0 then "1970-01-01T00:00:00Z" else "1970-01-01T00:00:00.001Z".

(** A document with a cookie, and a world at time 7 whose session object
    already has a [timestamp] property. *)
Definition cookie_doc : obj := [("cookie", JObj [("originalMaxAge", JNum 1)])].

Definition cookie_docs : gmap string obj := {[ "abc" := cookie_doc ]}.

Definition stamped_heap : gmap loc obj :=
  {[ 0%nat := [("timestamp", JStr "mine"); ("user", JNum 1)] ]}.

Definition stamped_world : world :=
  World (extend defaults demo_user) ∅ 7 stamped_heap ∅ 0%nat [] ∅ [].

(** The example store after two touches on "abc", 10 ms apart. *)
Definition touched_twice : world :=
  (step demo_toString (CallTouch "abc" 0%nat None)
     (step demo_toString (Tick 10)
        (step demo_toString (CallTouch "abc" 0%nat None) demo_store).2).2).2.

(** ** Further observations *)

(** The client calls and the callback invocations of a trace. *)
Fixpoint count_requests (tr : list event) : nat :=
  match tr with
  | [] => 0
  | EvRequest _ _ :: rest => S (count_requests rest)
  | _ :: rest => count_requests rest
  end.

Fixpoint count_callbacks (tr : list event) : nat :=
  match tr with
  | [] => 0
  | EvCallback _ _ :: rest => S (count_callbacks rest)
  | _ :: rest => count_callbacks rest
  end.

(** Every live timer was armed for the TTL of the store, not later than
    now. *)
Definition timers_for_ttl (w : world) : Prop :=
  forall h t, pending w !! h = Some t ->
    delay t = ttl (opts w) /\ armed_at t <= clock w.

(** The callbacks invoked so far and the requests that still await their
    reply are together not more than the requests issued. *)
Definition callbacks_bounded (w : world) : Prop :=
  (count_callbacks (trace w) + List.length (inflight w)
   <= count_requests (trace w))%nat.

(** ** The first version of the store

    [src/unnamed/part_000]: no TTL and no timers; [get], [set] and
    [destroy] only.  The client calls are given by their parameters. *)

Module Legacy.

Record options := Options {
  host : string;
  index : string;
  typeName : string;
  pingInterval : Z;
  timeout : Z;
  prefix : string;
  logLevel : string
}.

Definition defaults : options :=
  {| host := "localhost:9200";
     index := "express";
     typeName := "session";
     pingInterval := 1000;
     timeout := 1000;
     prefix := "";
     logLevel := "trace" |}.

(** The [options] argument: [None] is a key that is absent or
    [undefined]. *)
Record user_options := UserOptions {
  u_host : option string;
  u_index : option string;
  u_typeName : option string;
  u_pingInterval : option Z;
  u_timeout : option Z;
  u_prefix : option string;
  u_logLevel : option string
}.

(** The loop over the keys of [defaults]:
    [o[i] = options[i] !== undefined ? options[i] : defaults[i]]. *)
Definition merge (u : user_options) : options :=
  {| host := default (host defaults) (u_host u);
     index := default (index defaults) (u_index u);
     typeName := default (typeName defaults) (u_typeName u);
     pingInterval := default (pingInterval defaults) (u_pingInterval u);
     timeout := default (timeout defaults) (u_timeout u);
     prefix := default (prefix defaults) (u_prefix u);
     logLevel := default (logLevel defaults) (u_logLevel u) |}.

(** [this.es], which [set] and [destroy] read. *)
Record es_config := EsConfig { es_index : string; es_type : string }.

(** The store object: the constructor assigns [this.options] (and the
    client); no statement of the file assigns [this.es]. *)
Record store := Store {
  st_options : options;
  st_es : option es_config
}.

Inductive outcome (A : Type) :=
| Returned (a : A)
| TypeError.

Arguments Returned {A} a.
Arguments TypeError {A}.

(** The constructor; without an [options] argument, [options[i]] throws. *)
Definition ESStore (u : option user_options) : outcome store :=
  match u with
  | None => TypeError
  | Some x => Returned (Store (merge x) None)
  end.

Definition pSid (s : store) (sid : string) : string :=
  prefix (st_options s) +:+ sid.

(** The parameters of a client call; [None] is [undefined]. *)
Record params := Params {
  p_index : string;
  p_type : option string;
  p_id : string;
  p_body : option obj
}.

(** [get]: the type is read from [this.options.typee], a key that the
    options do not have. *)
Definition get (s : store) (sid : string) : params :=
  Params (index (st_options s)) None (pSid s sid) None.

(** [cb(args)] without a guard: a [cb] that is not a function throws. *)
Definition call (cb : callback) (args : list arg) (w : world)
    : completion * world :=
  match cb with
  | Some f => (Normal, emit (EvCallback f args) w)
  | None => (ThrowTypeError, w)
  end.

(** The function that receives [(e, r)] of [get]. *)
Definition get_reply (cb : callback) (e : option es_error) (r : option body)
    (w : world) : completion * world :=
  match r with
  | None => call cb [] w
  | Some b =>
      call cb [ANull;
               match _source b with
               | Some src => AObject src
               | None => AUndefined
               end] w
  end.

(** [set] and [destroy]: [this.es.index] is read first. *)
Definition set (s : store) (sid : string) (sess : obj) : outcome params :=
  match st_es s with
  | None => TypeError
  | Some c => Returned (Params (es_index c) (Some (es_type c)) (pSid s sid)
                               (Some sess))
  end.

Definition destroy (s : store) (sid : string) : outcome params :=
  match st_es s with
  | None => TypeError
  | Some c => Returned (Params (es_index c) (Some (es_type c)) (pSid s sid)
                               None)
  end.

End Legacy.

(** ** More examples *)

(** The example store with a second session object at location 1. *)
Definition two_sessions : world :=
  ESStore demo_user 0
    (<[1%nat := [("cart", JNum 2)]]> demo_heap) 0%nat ∅.

(** Options for the first version: everything by default. *)
Definition legacy_user : Legacy.user_options :=
  Legacy.UserOptions None None None None None None None.

(** ** Observations on the handlers *)

(** The events of a call [cb(args)] under its guard: one invocation when
    [cb] is a function, none otherwise. *)
Definition callback_events (cb : callback) (args : list arg) : list event :=
  match cb with
  | Some f => [EvCallback f args]
  | None => []
  end.

(** From [w] to [w'] the options stay, the trace grows, no key leaves
    [this.timeouts], and a key whose entry changed was scheduled: the new
    events have a [setTimeout] for an id with that key. *)
Definition timeouts_step (w w' : world) : Prop :=
  opts w' = opts w /\
  exists evs,
    trace w' = trace w ++ evs /\
    forall key,
      (is_Some (timeouts w !! key) -> is_Some (timeouts w' !! key)) /\
      (timeouts w' !! key = timeouts w !! key \/
       exists h sid ms,
         EvSetTimeout h sid ms ∈ evs /\ pSid (opts w) sid = key).

(** The record of the specification's scenario, written at time 0. *)
Definition abc_record : obj := [("user", JNum 1); ("timestamp", JNum 0)].

(** The example store after one touch on "abc". *)
Definition touched_once : world :=
  (step demo_toString (CallTouch "abc" 0%nat None) demo_store).2.

(** * Properties *)

(** ** Objects *)

Lemma get_set_field_eq (o : obj) (k : string) (v : value) :
  get_field (set_field o k v) k = Some v.
Proof.
  induction o as [|[k' v'] rest IH]; simpl.
  - by rewrite String.eqb_refl.
  - destruct (String.eqb k' k) eqn:E; simpl; rewrite E; [done | exact IH].
Qed.

Lemma get_set_field_ne (o : obj) (k k2 : string) (v : value) :
  k <> k2 -> get_field (set_field o k v) k2 = get_field o k2.
Proof.
  intros Hne. induction o as [|[k' v'] rest IH]; simpl.
  - destruct (String.eqb k k2) eqn:E; [|done].
    apply String.eqb_eq in E. contradiction.
  - destruct (String.eqb k' k) eqn:E; simpl.
    + apply String.eqb_eq in E. subst k'.
      destruct (String.eqb k k2) eqn:E2; [|done].
      apply String.eqb_eq in E2. contradiction.
    + by rewrite IH.
Qed.

(** ** Traces *)

Lemma events_since_app (w w' : world) (evs : list event) :
  trace w' = trace w ++ evs -> events_since w w' = evs.
Proof. intros H. unfold events_since. rewrite H. apply drop_app_length. Qed.

Lemma events_since_refl (w : world) : events_since w w = [].
Proof. apply events_since_app. by rewrite app_nil_r. Qed.

Lemma trace_invoke (cb : callback) (args : list arg) (w : world) :
  trace (invoke cb args w) =
  trace w ++ match cb with Some f => [EvCallback f args] | None => [] end.
Proof. destruct cb; simpl; [done | by rewrite app_nil_r]. Qed.

Lemma minus_gt_older (w : world) (src : obj) :
  minus_gt (clock w) (to_number (get_field src "timestamp")) (ttl (opts w))
    = true <-> older_than_ttl w src.
Proof.
  unfold older_than_ttl.
  destruct (to_number (get_field src "timestamp")); simpl;
    rewrite ?Z.ltb_lt; intuition (try discriminate; try lia).
Qed.

(** ** get *)

Lemma events_since_invoke (cb : callback) (args : list arg) (w : world) :
  events_since w (invoke cb args w) =
  match cb with Some f => [EvCallback f args] | None => [] end.
Proof. apply events_since_app, trace_invoke. Qed.

Lemma invoke_passes_no_error (cb : callback) (args : list arg) (w : world) :
  args = [] \/ (exists rest, args = ANull :: rest) ->
  forall ev, ev ∈ events_since w (invoke cb args w) -> passes_error ev = false.
Proof.
  intros Hargs ev. rewrite events_since_invoke. destruct cb as [f|].
  - intros ->%list_elem_of_singleton.
    destruct Hargs as [->|[rest ->]]; reflexivity.
  - intros Hin. by apply not_elem_of_nil in Hin.
Qed.

Lemma get_reply_events (cb : callback) (e : option es_error)
    (r : option body) (w : world) :
  forall ev, ev ∈ events_since w (get_reply cb e r w).2 ->
    passes_error ev = false.
Proof.
  unfold get_reply.
  destruct e as [err|]; [|destruct r as [b|]; [destruct (_source b) as [src|]|]];
    simpl.
  - apply invoke_passes_no_error. by left.
  - destruct (minus_gt _ _ _); simpl; apply invoke_passes_no_error;
      [by left | right; by eexists].
  - rewrite events_since_refl. intros ev Hin. by apply not_elem_of_nil in Hin.
  - apply invoke_passes_no_error. by left.
Qed.

Lemma get_reply_source (cb : callback) (b : body) (src : obj) (w : world) :
  _source b = Some src -> ~ older_than_ttl w src ->
  get_reply cb None (Some b) w = (Normal, invoke cb [ANull; AObject src] w).
Proof.
  intros Hsrc Hnew. unfold get_reply. rewrite Hsrc.
  destruct (minus_gt _ _ _) eqn:E; [|done].
  apply minus_gt_older in E. contradiction.
Qed.

(** ** sessionTimeout *)

Section SessionTimeout.
Variables (sid : string) (w : world).

Lemma sessionTimeout_opts : opts (sessionTimeout sid w) = opts w.
Proof. unfold sessionTimeout. by destruct (timeouts w !! _), w. Qed.

Lemma sessionTimeout_clock : clock (sessionTimeout sid w) = clock w.
Proof. unfold sessionTimeout. by destruct (timeouts w !! _), w. Qed.

Lemma sessionTimeout_heap : heap (sessionTimeout sid w) = heap w.
Proof. unfold sessionTimeout. by destruct (timeouts w !! _), w. Qed.

Lemma sessionTimeout_docs : docs (sessionTimeout sid w) = docs w.
Proof. unfold sessionTimeout. by destruct (timeouts w !! _), w. Qed.

Lemma sessionTimeout_inflight :
  inflight (sessionTimeout sid w) = inflight w.
Proof. unfold sessionTimeout. by destruct (timeouts w !! _), w. Qed.

Lemma sessionTimeout_next_handle :
  next_handle (sessionTimeout sid w) = S (next_handle w).
Proof. unfold sessionTimeout. by destruct (timeouts w !! _), w. Qed.

Lemma sessionTimeout_timeouts :
  timeouts (sessionTimeout sid w) = <[pSid (opts w) sid := next_handle w]> (timeouts w).
Proof. unfold sessionTimeout. by destruct (timeouts w !! _), w. Qed.

Lemma sessionTimeout_pending :
  pending (sessionTimeout sid w) =
  <[next_handle w := Timer (clock w) (ttl (opts w)) sid]>
    (match timeouts w !! pSid (opts w) sid with
     | Some h => delete h (pending w)
     | None => pending w
     end).
Proof. unfold sessionTimeout. by destruct (timeouts w !! _), w. Qed.

Lemma sessionTimeout_trace :
  trace (sessionTimeout sid w) =
  trace w ++
    match timeouts w !! pSid (opts w) sid with
    | Some h => [EvClearTimeout h]
    | None => []
    end ++ [EvSetTimeout (next_handle w) sid (ttl (opts w))].
Proof.
  unfold sessionTimeout. destruct (timeouts w !! _), w; simpl; [|done].
  by rewrite <- app_assoc.
Qed.

(** Rescheduling keeps every live timer tracked: the timer that the map
    held for the key is cleared, the new handle is fresh. *)
Lemma sessionTimeout_tracked :
  timers_tracked w -> timers_tracked (sessionTimeout sid w).
Proof.
  intros (Hinv & Hold & Hown). set (key := pSid (opts w) sid).
  assert (Hkeep : forall h t,
            h <> next_handle w ->
            pending (sessionTimeout sid w) !! h = Some t ->
            pending w !! h = Some t /\ timeouts w !! key <> Some h).
  { intros h t Hne. rewrite sessionTimeout_pending. fold key.
    rewrite lookup_insert_ne by done.
    destruct (timeouts w !! key) as [h0|] eqn:Hk; [|done].
    destruct (decide (h0 = h)) as [->|Hne0].
    - by rewrite lookup_delete_eq.
    - rewrite lookup_delete_ne by done. split; [done | congruence]. }
  split; [|split].
  - intros h t Hh.
    rewrite sessionTimeout_timeouts, sessionTimeout_opts. fold key.
    destruct (decide (h = next_handle w)) as [->|Hne].
    + rewrite sessionTimeout_pending, lookup_insert_eq in Hh.
      injection Hh as <-. simpl. fold key. by rewrite lookup_insert_eq.
    + destruct (Hkeep h t Hne Hh) as [Hp Hk].
      pose proof (Hinv h t Hp) as Ht.
      rewrite lookup_insert_ne; [done|].
      intros Heq. rewrite <- Heq in Ht. contradiction.
  - intros k h.
    rewrite sessionTimeout_timeouts, sessionTimeout_next_handle. fold key.
    destruct (decide (key = k)) as [<-|Hne].
    + rewrite lookup_insert_eq. intros [= <-]. lia.
    + rewrite lookup_insert_ne by done. intros Hk.
      pose proof (Hold k h Hk). lia.
  - intros k h t.
    rewrite sessionTimeout_timeouts, sessionTimeout_opts. fold key.
    destruct (decide (key = k)) as [<-|Hne].
    + rewrite lookup_insert_eq. intros [= <-].
      rewrite sessionTimeout_pending, lookup_insert_eq. by intros [= <-].
    + rewrite lookup_insert_ne by done. intros Hk Hh.
      pose proof (Hold k h Hk) as Hlt.
      destruct (Hkeep h t ltac:(lia) Hh) as [Hp _].
      by apply (Hown k h t).
Qed.

End SessionTimeout.

(** ** Steps that leave the timers alone *)

Lemma same_timers_refl (w : world) : same_timers w w.
Proof. by repeat split. Qed.

Lemma same_timers_trans (w1 w2 w3 : world) :
  same_timers w1 w2 -> same_timers w2 w3 -> same_timers w1 w3.
Proof.
  intros (?&?&?&?) (?&?&?&?). repeat split; congruence.
Qed.

Lemma same_timers_emit (ev : event) (w : world) : same_timers w (emit ev w).
Proof. by destruct w. Qed.

Lemma same_timers_send (q : request) (k : kont) (w : world) :
  same_timers w (send q k w).
Proof. by destruct w. Qed.

Lemma same_timers_invoke (cb : callback) (args : list arg) (w : world) :
  same_timers w (invoke cb args w).
Proof. destruct cb; by destruct w. Qed.

Lemma same_timers_get (sid : string) (cb : callback) (w : world) :
  same_timers w (get sid cb w).
Proof. apply same_timers_send. Qed.

Lemma same_timers_destroy (sid : string) (cb : callback) (w : world) :
  same_timers w (destroy sid cb w).
Proof. apply same_timers_send. Qed.

Lemma same_timers_set (sid : string) (sess : loc) (cb : callback) (w : world) :
  same_timers w (set sid sess cb w).2.
Proof.
  unfold set. destruct (heap w !! sess); simpl; [|apply same_timers_refl].
  by destruct w.
Qed.

Lemma same_timers_get_reply (cb : callback) (e : option es_error)
    (r : option body) (w : world) :
  same_timers w (get_reply cb e r w).2.
Proof.
  unfold get_reply.
  destruct e; [|destruct r as [b|]; [destruct (_source b)|]]; simpl;
    try destruct (minus_gt _ _ _); simpl;
    first [apply same_timers_invoke | apply same_timers_refl].
Qed.

Lemma timers_tracked_same (w w' : world) :
  same_timers w w' -> timers_tracked w -> timers_tracked w'.
Proof.
  intros (Hp & Ht & Ho & Hn) (Hinv & Hold & Hown). split; [|split].
  - intros h t. rewrite Hp, Ht, Ho. apply Hinv.
  - intros k h. rewrite Ht, Hn. apply Hold.
  - intros k h t. rewrite Hp, Ht, Ho. apply Hown.
Qed.

(** ** The timers of a running store *)

Lemma fire_pending (h : handle) (w : world) :
  pending (fire h w) = delete h (pending w) /\
  timeouts (fire h w) = timeouts w /\
  opts (fire h w) = opts w /\ next_handle (fire h w) = next_handle w.
Proof.
  unfold fire. destruct (pending w !! h) eqn:E.
  - by destruct w.
  - by rewrite delete_id.
Qed.

Lemma fire_tracked (h : handle) (w : world) :
  timers_tracked w -> timers_tracked (fire h w).
Proof.
  intros (Hinv & Hold & Hown).
  destruct (fire_pending h w) as (Hp & Ht & Ho & Hn).
  split; [|split].
  - intros h' t. rewrite Hp, Ht, Ho.
    intros Hh. apply lookup_delete_Some in Hh as [_ Hh]. by apply Hinv.
  - intros k h'. rewrite Ht, Hn. apply Hold.
  - intros k h' t. rewrite Hp, Ht, Ho.
    intros Hk Hh. apply lookup_delete_Some in Hh as [_ Hh].
    by apply (Hown k h' t).
Qed.

Lemma foldl_sessionTimeout_tracked (l : list hit) (w : world) :
  timers_tracked w ->
  timers_tracked (foldl (fun acc x => sessionTimeout (_id x) acc) w l).
Proof.
  revert w. induction l as [|x l IH]; intros w Hinv; simpl; [done|].
  by apply IH, sessionTimeout_tracked.
Qed.

Lemma scan_reply_tracked (e : option es_error) (r : option body) (w : world) :
  timers_tracked w -> timers_tracked (scan_reply e r w).2.
Proof.
  intros Hinv. unfold scan_reply.
  set (w1 := match e with Some err => emit (EvConsoleError err) w | None => w end).
  assert (H1 : timers_tracked w1).
  { subst w1. destruct e; [|done].
    eapply timers_tracked_same; [apply same_timers_emit | done]. }
  destruct r as [b|]; [|done].
  destruct (hits b) as [ho|]; [|done].
  destruct (hits_hits ho) as [l|]; [|done].
  simpl. by apply foldl_sessionTimeout_tracked.
Qed.

Lemma touch_tracked (sid : string) (sess : loc) (cb : callback) (w : world) :
  timers_tracked w -> timers_tracked (touch sid sess cb w).
Proof.
  intros Hinv. unfold touch.
  eapply timers_tracked_same; [apply same_timers_send|].
  by apply sessionTimeout_tracked.
Qed.

Section Running.
Variable fmt : Z -> string.

Lemma deliver_tracked (k : kont) (e : option es_error) (r : option body)
    (w : world) :
  timers_tracked w -> timers_tracked (deliver k e r w).2.
Proof.
  intros Hinv. destruct k; simpl.
  - eapply timers_tracked_same; [apply same_timers_get_reply | done].
  - eapply timers_tracked_same; [apply same_timers_invoke | done].
  - eapply timers_tracked_same; [apply same_timers_invoke | done].
  - eapply timers_tracked_same; [apply same_timers_invoke | done].
  - by apply scan_reply_tracked.
Qed.

Lemma reply_tracked (i : nat) (fault : option es_error) (w : world) :
  timers_tracked w -> timers_tracked (reply fmt i fault w).2.
Proof.
  intros Hinv. unfold reply. destruct (inflight w !! i) as [[q k]|]; [|done].
  destruct (es_exec fmt (docs w) q fault) as [d' [e r]].
  apply deliver_tracked.
  eapply timers_tracked_same; [|exact Hinv]. by destruct w.
Qed.

Lemma step_tracked (a : action) (w : world) :
  timers_tracked w -> timers_tracked (step fmt a w).2.
Proof.
  intros Hinv. destruct a; simpl.
  - eapply timers_tracked_same; [apply same_timers_get | done].
  - eapply timers_tracked_same; [apply same_timers_set | done].
  - eapply timers_tracked_same; [apply same_timers_destroy | done].
  - by apply touch_tracked.
  - by apply reply_tracked.
  - by apply fire_tracked.
  - eapply timers_tracked_same; [|exact Hinv]. by destruct w.
  - destruct (heap w !! l); simpl; [|done].
    eapply timers_tracked_same; [|exact Hinv]. by destruct w.
Qed.

Lemma new_store_tracked (u : user_options) (now : Z) (hp : gmap loc obj)
    (n : handle) (d : gmap string obj) :
  timers_tracked (ESStore u now hp n d).
Proof.
  split; [|split]; [intros h t | intros k h | intros k h t]; simpl;
    by rewrite lookup_empty.
Qed.

Lemma reachable_tracked (w : world) : reachable fmt w -> timers_tracked w.
Proof.
  induction 1 as [u now hp n d | a w _ IH].
  - apply new_store_tracked.
  - by apply step_tracked.
Qed.

End Running.

(** ** At most one live timer per storage key *)

Lemma elem_of_live_timers (w : world) (key : string) (h : handle) (t : timer) :
  (h, t) ∈ live_timers w key <->
  pending w !! h = Some t /\ pSid (opts w) (timer_sid t) = key.
Proof.
  unfold live_timers. rewrite list_elem_of_filter, elem_of_map_to_list.
  simpl. tauto.
Qed.

Lemma NoDup_live_timers (w : world) (key : string) :
  NoDup (live_timers w key).
Proof. apply NoDup_filter, NoDup_map_to_list. Qed.

Lemma NoDup_all_equal {A : Type} (l : list A) (x : A) :
  NoDup l -> (forall y, y ∈ l -> y = x) -> l = [] \/ l = [x].
Proof.
  intros Hnd Hall. destruct l as [|a l]; [by left | right].
  assert (a = x) as -> by (apply Hall; left).
  destruct l as [|b l]; [done|].
  assert (b = x) as -> by (apply Hall; right; left).
  apply NoDup_cons in Hnd as [Hnotin _]. exfalso. apply Hnotin. left.
Qed.

Lemma tracked_live_timers (w : world) (key : string) (h : handle) :
  timers_tracked w -> timeouts w !! key = Some h ->
  forall t, pending w !! h = Some t -> pSid (opts w) (timer_sid t) = key ->
  live_timers w key = [(h, t)].
Proof.
  intros (Hinv & _ & _) Hk t Hp Hkey.
  destruct (NoDup_all_equal (live_timers w key) (h, t)) as [Hnil|Hone];
    [apply NoDup_live_timers | | | done].
  - intros [h' t'] [Hp' Hkey']%elem_of_live_timers.
    pose proof (Hinv h' t' Hp') as Hk'. rewrite Hkey' in Hk'.
    assert (h' = h) as -> by congruence. congruence.
  - assert (Hin : (h, t) ∈ live_timers w key) by by apply elem_of_live_timers.
    rewrite Hnil in Hin. by apply not_elem_of_nil in Hin.
Qed.

Lemma tracked_at_most_one (w : world) (key : string) :
  timers_tracked w -> (List.length (live_timers w key) <= 1)%nat.
Proof.
  intros Hinv.
  destruct (live_timers w key) as [|[h t] l] eqn:E; [simpl; lia|].
  assert (Hin : (h, t) ∈ live_timers w key) by (rewrite E; left).
  apply elem_of_live_timers in Hin as [Hp Hkey].
  pose proof (proj1 Hinv h t Hp) as Hk. rewrite Hkey in Hk.
  rewrite (tracked_live_timers w key h Hinv Hk t Hp Hkey) in E.
  injection E as <-. simpl. lia.
Qed.

Lemma sessionTimeout_clears (sid : string) (w : world) (h : handle) :
  timers_tracked w -> timeouts w !! pSid (opts w) sid = Some h ->
  pending (sessionTimeout sid w) !! h = None.
Proof.
  intros (_ & Hold & _) Hk. rewrite sessionTimeout_pending, Hk.
  pose proof (Hold _ _ Hk).
  rewrite lookup_insert_ne by lia. apply lookup_delete_eq.
Qed.

Lemma sessionTimeout_live_timers (sid : string) (w : world) :
  timers_tracked w ->
  live_timers (sessionTimeout sid w) (pSid (opts w) sid) =
  [(next_handle w, Timer (clock w) (ttl (opts w)) sid)].
Proof.
  intros Hinv. apply tracked_live_timers.
  - by apply sessionTimeout_tracked.
  - rewrite sessionTimeout_timeouts. apply lookup_insert_eq.
  - rewrite sessionTimeout_pending. apply lookup_insert_eq.
  - by rewrite sessionTimeout_opts.
Qed.

Lemma live_timers_same (w w' : world) (key : string) :
  same_timers w w' -> live_timers w' key = live_timers w key.
Proof. intros (Hp & _ & Ho & _). unfold live_timers. by rewrite Hp, Ho. Qed.

Lemma set_clock_opts (t : Z) (w : world) : opts (set_clock t w) = opts w.
Proof. by destruct w. Qed.

Lemma set_clock_clock (t : Z) (w : world) : clock (set_clock t w) = t.
Proof. by destruct w. Qed.

Lemma touch_opts (sid : string) (sess : loc) (cb : callback) (w : world) :
  opts (touch sid sess cb w) = opts w.
Proof.
  unfold touch. rewrite <- (sessionTimeout_opts sid w).
  by destruct (sessionTimeout sid w).
Qed.

Lemma touch_clock (sid : string) (sess : loc) (cb : callback) (w : world) :
  clock (touch sid sess cb w) = clock w.
Proof.
  unfold touch. rewrite <- (sessionTimeout_clock sid w).
  by destruct (sessionTimeout sid w).
Qed.

Lemma touch_live_timers (sid : string) (sess : loc) (cb : callback)
    (w : world) :
  timers_tracked w ->
  live_timers (touch sid sess cb w) (pSid (opts w) sid) =
  [(next_handle w, Timer (clock w) (ttl (opts w)) sid)].
Proof.
  intros Hinv. unfold touch.
  rewrite (live_timers_same (sessionTimeout sid w)) by apply same_timers_send.
  by apply sessionTimeout_live_timers.
Qed.

(** C3. In every state that a store reaches, each storage key has at most
    one live timer.  [sessionTimeout] clears the timer that the map holds
    for the key before it arms the new one, and afterwards the new timer is
    the only live one of the key.  Two [touch] calls on the same id, [ms]
    milliseconds apart, leave exactly one live timer for its key: the one
    armed by the later call, at the time of that call, for the TTL. *)
Theorem one_live_timer_per_key (fmt : Z -> string) (w : world)
    (Hreach : reachable fmt w) :
  (forall key, (List.length (live_timers w key) <= 1)%nat) /\
  (forall sid,
     let key := pSid (opts w) sid in
     events_since w (sessionTimeout sid w) =
       match timeouts w !! key with
       | Some h => [EvClearTimeout h]
       | None => []
       end ++ [EvSetTimeout (next_handle w) sid (ttl (opts w))] /\
     (forall h, timeouts w !! key = Some h ->
        pending (sessionTimeout sid w) !! h = None) /\
     live_timers (sessionTimeout sid w) key =
       [(next_handle w, Timer (clock w) (ttl (opts w)) sid)]) /\
  (forall sid sess1 cb1 ms sess2 cb2,
     let w1 := run fmt [CallTouch sid sess1 cb1; Tick ms] w in
     let w2 := run fmt [CallTouch sid sess2 cb2] w1 in
     live_timers w2 (pSid (opts w) sid) =
       [(next_handle w1,
         Timer (clock w + Z.of_nat ms) (ttl (opts w)) sid)]).
Proof.
  pose proof (reachable_tracked fmt w Hreach) as Hinv.
  split; [|split].
  - intros key. by apply tracked_at_most_one.
  - intros sid key. split; [|split].
    + apply events_since_app, sessionTimeout_trace.
    + intros h Hk. by apply sessionTimeout_clears.
    + by apply sessionTimeout_live_timers.
  - intros sid sess1 cb1 ms sess2 cb2 w1 w2.
    assert (Hw1 : w1 = set_clock (clock (touch sid sess1 cb1 w) + Z.of_nat ms)
                         (touch sid sess1 cb1 w)) by reflexivity.
    assert (Hreach1 : reachable fmt w1).
    { apply (reach_step fmt (Tick ms)).
      by apply (reach_step fmt (CallTouch sid sess1 cb1)). }
    assert (Ho : opts w1 = opts w).
    { rewrite Hw1, set_clock_opts. apply touch_opts. }
    assert (Hc : clock w1 = clock w + Z.of_nat ms).
    { by rewrite Hw1, set_clock_clock, touch_clock. }
    change w2 with (touch sid sess2 cb2 w1). rewrite <- Ho, <- Hc.
    apply touch_live_timers. by apply (reachable_tracked fmt).
Qed.

(** ** set *)

Lemma set_unfold (sid : string) (sess : loc) (cb : callback) (w : world)
    (P : obj) :
  heap w !! sess = Some P ->
  set sid sess cb w =
    (Normal,
     send (ClientIndex (index (opts w)) (typeName (opts w))
                       (pSid (opts w) sid)
                       (set_field P "timestamp" (JNum (clock w))))
          (KSet cb)
          (set_heap (<[sess := set_field P "timestamp" (JNum (clock w))]>
                       (heap w)) w)).
Proof. intros H. unfold set. rewrite H. by destruct w. Qed.

(** C10. [set] assigns the current time to the [timestamp] property of the
    caller's session object itself: after the call the object that the
    caller holds has [timestamp] equal to the clock, whatever it held
    there before, its other properties and the other objects of the heap
    are as they were, and the request that [set] issues already carries
    the stamped object. *)
Theorem set_stamps_caller_object (sid : string) (sess : loc) (cb : callback)
    (w : world) (P : obj) (HP : heap w !! sess = Some P) :
  let w' := (set sid sess cb w).2 in
  let P' := set_field P "timestamp" (JNum (clock w)) in
  heap w' !! sess = Some P' /\
  get_field P' "timestamp" = Some (JNum (clock w)) /\
  (forall k, k <> "timestamp" -> get_field P' k = get_field P k) /\
  (forall l, l <> sess -> heap w' !! l = heap w !! l) /\
  events_since w w' =
    [EvRequest (ClientIndex (index (opts w)) (typeName (opts w))
                            (pSid (opts w) sid) P')
               (KSet cb)].
Proof.
  intros w' P'. subst w'. rewrite (set_unfold sid sess cb w P HP). fold P'.
  repeat split.
  - destruct w; simpl in *. apply lookup_insert_eq.
  - apply get_set_field_eq.
  - intros k Hk. by apply get_set_field_ne.
  - intros l Hl. destruct w; simpl in *. by apply lookup_insert_ne.
  - apply events_since_app. by destruct w.
Qed.

(** ** touch *)


Lemma touch_pending (sid : string) (sess : loc) (cb : callback) (w : world) :
  pending (touch sid sess cb w) = pending (sessionTimeout sid w) /\
  timeouts (touch sid sess cb w) = timeouts (sessionTimeout sid w).
Proof. unfold touch. by destruct (sessionTimeout sid w). Qed.

Lemma run_touch_script_only_expires (fmt : Z -> string) (now : Z)
    (src src' : obj) :
  run_touch_script fmt now src = Some src' ->
  exists c n,
    get_field src "cookie" = Some (JObj c) /\
    get_field c "originalMaxAge" = Some (JNum n) /\
    get_field src' "cookie" =
      Some (JObj (set_field c "expires" (JStr (fmt (now + n))))) /\
    (forall k, k <> "cookie" -> get_field src' k = get_field src k).
Proof.
  unfold run_touch_script. intros H.
  destruct (get_field src "cookie") as [[| | | | |c]|] eqn:Hc; try done.
  destruct (get_field c "originalMaxAge") as [[| |n| | |]|] eqn:Hn; try done.
  injection H as <-. exists c, n.
  split; [done|]. split; [done|]. split.
  - apply get_set_field_eq.
  - intros k Hk. by apply get_set_field_ne.
Qed.

(** ** Round trip *)

Lemma reply_newest (fmt : Z -> string) (fault : option es_error) (w : world)
    (l : list (request * kont)) (q : request) (k : kont) :
  inflight w = l ++ [(q, k)] ->
  reply fmt (List.length l) fault w =
    deliver k (es_exec fmt (docs w) q fault).2.1
              (es_exec fmt (docs w) q fault).2.2
              (set_docs (es_exec fmt (docs w) q fault).1 (set_inflight l w)).
Proof.
  intros Hl. unfold reply. rewrite Hl.
  rewrite list_lookup_middle by done.
  destruct (es_exec fmt (docs w) q fault) as [d' [e r]]. simpl.
  by rewrite delete_middle, app_nil_r.
Qed.

Lemma set_then_reply (fmt : Z -> string) (w : world) (sid : string)
    (sess : loc) (cb : callback) (P : obj) :
  heap w !! sess = Some P ->
  let P' := set_field P "timestamp" (JNum (clock w)) in
  let q := ClientIndex (index (opts w)) (typeName (opts w))
                       (pSid (opts w) sid) P' in
  reply fmt (List.length (inflight w)) None (set sid sess cb w).2 =
    (Normal,
     invoke cb [AUndefined]
       (set_docs (<[pSid (opts w) sid := P']> (docs w))
          (set_heap (<[sess := P']> (heap w))
             (emit (EvRequest q (KSet cb)) w)))).
Proof.
  intros HP P' q. rewrite (set_unfold sid sess cb w P HP). fold P' q.
  rewrite (reply_newest fmt None _ (inflight w) q (KSet cb)) by (by destruct w).
  by destruct w.
Qed.

Lemma get_then_reply (fmt : Z -> string) (w : world) (sid : string)
    (cb : callback) (src : obj) :
  docs w !! pSid (opts w) sid = Some src ->
  let q := ClientGet (index (opts w)) (typeName (opts w))
                     (pSid (opts w) sid) in
  reply fmt (List.length (inflight w)) None (get sid cb w) =
    get_reply cb None (Some (Body (Some src) None))
      (emit (EvRequest q (KGet cb)) w).
Proof.
  intros Hd q.
  rewrite (reply_newest fmt None _ (inflight w) q (KGet cb)) by (by destruct w).
  replace (docs (get sid cb w)) with (docs w) by (by destruct w).
  subst q. cbn [es_exec]. rewrite Hd. cbn [fst snd deliver]. by destruct w.
Qed.

(** C8. [set(id, P)], its reply from the index, then, [ms] milliseconds
    later with [ms] below the TTL, [get(id)] and its reply: the callback of
    [get] receives [(null, P')] where [P'] is the payload object as the
    caller holds it after [set], that is [P] with the write timestamp, and
    as the index stores it; apart from [timestamp] it has the properties
    of [P]. *)
Theorem set_then_get_roundtrip (fmt : Z -> string) (w : world) (sid : string)
    (sess : loc) (P : obj) (cb : callback) (g : string) (ms : nat)
    (HP : heap w !! sess = Some P)
    (Hms : Z.of_nat ms < ttl (opts w)) :
  let n := List.length (inflight w) in
  let P' := set_field P "timestamp" (JNum (clock w)) in
  let w1 := run fmt [CallSet sid sess cb; Reply n None; Tick ms;
                     CallGet sid (Some g); Reply n None] w in
  last (trace w1) = Some (EvCallback g [ANull; AObject P']) /\
  heap w1 !! sess = Some P' /\
  docs w1 !! pSid (opts w) sid = Some P' /\
  (forall k, k <> "timestamp" -> get_field P' k = get_field P k).
Proof.
  intros n P' w1.
  set (q := ClientIndex (index (opts w)) (typeName (opts w))
                        (pSid (opts w) sid) P').
  set (wb := invoke cb [AUndefined]
       (set_docs (<[pSid (opts w) sid := P']> (docs w))
          (set_heap (<[sess := P']> (heap w))
             (emit (EvRequest q (KSet cb)) w)))).
  set (wc := set_clock (clock wb + Z.of_nat ms) wb).
  assert (Hw1 : w1 = (reply fmt (List.length (inflight wc)) None
                        (get sid (Some g) wc)).2).
  { subst w1 n. unfold run. cbn [foldl step snd].
    rewrite (set_then_reply fmt w sid sess cb P HP). cbn [snd].
    fold P' q wb wc.
    replace (inflight wc) with (inflight w); [done|].
    subst wc wb. by destruct cb, w. }
  assert (Hdocs : docs wc = <[pSid (opts w) sid := P']> (docs w))
    by (subst wc wb; by destruct cb, w).
  assert (Hopts : opts wc = opts w) by (subst wc wb; by destruct cb, w).
  assert (Hclock : clock wc = clock w + Z.of_nat ms)
    by (subst wc wb; by destruct cb, w).
  assert (Hheap : heap wc = <[sess := P']> (heap w))
    by (subst wc wb; by destruct cb, w).
  rewrite (get_then_reply fmt wc sid (Some g) P') in Hw1
    by (rewrite Hdocs, Hopts; apply lookup_insert_eq).
  assert (Hfresh : ~ older_than_ttl
            (emit (EvRequest (ClientGet (index (opts wc)) (typeName (opts wc))
                                        (pSid (opts wc) sid)) (KGet (Some g))) wc) P').
  { unfold older_than_ttl. subst P'. rewrite get_set_field_eq.
    cbn [to_number to_number_value]. intros Hlt.
    replace (clock (emit _ wc)) with (clock wc) in Hlt by (by destruct wc).
    replace (opts (emit _ wc)) with (opts wc) in Hlt by (by destruct wc).
    rewrite Hclock, Hopts in Hlt. lia. }
  rewrite (get_reply_source (Some g) (Body (Some P') None) P' _ eq_refl Hfresh)
    in Hw1.
  cbn [snd] in Hw1.
  split; [|split; [|split]].
  - rewrite Hw1. apply last_snoc.
  - rewrite Hw1. transitivity (heap wc !! sess); [by destruct wc|].
    rewrite Hheap. apply lookup_insert_eq.
  - rewrite Hw1. transitivity (docs wc !! pSid (opts w) sid); [by destruct wc|].
    rewrite Hdocs. apply lookup_insert_eq.
  - intros k Hk. by apply get_set_field_ne.
Qed.

(** ** A timer that fires *)

Lemma fire_unfold (h : handle) (t : timer) (w : world) :
  pending w !! h = Some t ->
  fire h w = destroy (timer_sid t) None (set_pending (delete h (pending w)) w).
Proof. intros H. unfold fire. by rewrite H. Qed.

(** C9 as stated fails: after [touch("abc")] on the example store the timer
    0 is live; when it fires, the map still has an entry for its key. *)
Lemma fired_timer_entry_not_removed :
  ~ (forall w h t,
       reachable demo_toString w -> pending w !! h = Some t ->
       timeouts (fire h w) !! pSid (opts w) (timer_sid t) = None).
Proof.
  intros H.
  specialize (H (step demo_toString (CallTouch "abc" 0%nat None) demo_store).2
                0%nat (Timer 0 1000 "abc")).
  assert (Hr : reachable demo_toString
                 (step demo_toString (CallTouch "abc" 0%nat None) demo_store).2).
  { apply reach_step. apply reach_new. }
  specialize (H Hr eq_refl). vm_compute in H. discriminate H.
Qed.

(** ** The recovery scan *)

Lemma append_inj_r (p a b : string) : p +:+ a = p +:+ b -> a = b.
Proof. induction p as [|c p IH]; simpl; [done|]. intros [= H]. by apply IH. Qed.

Lemma pSid_inj (o : options) (a b : string) : pSid o a = pSid o b -> a = b.
Proof. apply append_inj_r. Qed.

Lemma pSid_no_prefix (o : options) (sid : string) :
  prefix o = "" -> pSid o sid = sid.
Proof. unfold pSid. by intros ->. Qed.

Lemma append_length (p a : string) :
  String.length (p +:+ a) = (String.length p + String.length a)%nat.
Proof. induction p as [|c p IH]; simpl; [done | by rewrite IH]. Qed.

Lemma pSid_with_prefix (o : options) (sid : string) :
  prefix o <> "" -> pSid o sid <> sid.
Proof.
  intros Hne Heq. apply (f_equal String.length) in Heq.
  unfold pSid in Heq. rewrite append_length in Heq.
  destruct (prefix o); [done | simpl in Heq; lia].
Qed.

Lemma sessionTimeout_live_timers_other (sid : string) (w : world)
    (key : string) (h : handle) (t : timer) :
  timers_tracked w -> key <> pSid (opts w) sid ->
  live_timers w key = [(h, t)] ->
  live_timers (sessionTimeout sid w) key = [(h, t)].
Proof.
  intros Hinv Hne Hlive.
  assert (Hin : (h, t) ∈ live_timers w key) by (rewrite Hlive; left).
  apply elem_of_live_timers in Hin as [Hp Hkey].
  pose proof Hinv as (Htr & Hold & Hown).
  pose proof (Htr h t Hp) as Hk. rewrite Hkey in Hk.
  pose proof (Hold key h Hk) as Hlt.
  apply tracked_live_timers.
  - by apply sessionTimeout_tracked.
  - rewrite sessionTimeout_timeouts. by rewrite lookup_insert_ne.
  - rewrite sessionTimeout_pending, lookup_insert_ne by lia.
    destruct (timeouts w !! pSid (opts w) sid) as [h0|] eqn:Hk0; [|done].
    rewrite lookup_delete_ne; [done|].
    intros ->. apply Hne. rewrite <- Hkey. exact (Hown _ h t Hk0 Hp).
  - by rewrite sessionTimeout_opts.
Qed.

Lemma foldl_sessionTimeout_frame (l : list hit) (w : world) :
  opts (foldl (fun acc x => sessionTimeout (_id x) acc) w l) = opts w /\
  clock (foldl (fun acc x => sessionTimeout (_id x) acc) w l) = clock w.
Proof.
  revert w. induction l as [|x l IH]; intros w; simpl; [done|].
  destruct (IH (sessionTimeout (_id x) w)) as [-> ->].
  by rewrite sessionTimeout_opts, sessionTimeout_clock.
Qed.

(** After the scan has gone through the hits, each hit has exactly one live
    timer under the key [pSid(hit._id)], armed at the time of the scan for
    the TTL, whose closure holds [hit._id]. *)
Lemma foldl_sessionTimeout_live_timers (l : list hit) (w : world) :
  timers_tracked w ->
  forall x, x ∈ l ->
    exists h,
      live_timers (foldl (fun acc y => sessionTimeout (_id y) acc) w l)
                  (pSid (opts w) (_id x)) =
      [(h, Timer (clock w) (ttl (opts w)) (_id x))].
Proof.
  intros Hinv. induction l as [|y l IH] using rev_ind; intros x Hx.
  - by apply not_elem_of_nil in Hx.
  - rewrite foldl_snoc.
    set (w1 := foldl (fun acc y => sessionTimeout (_id y) acc) w l) in *.
    assert (Hw1 : timers_tracked w1) by by apply foldl_sessionTimeout_tracked.
    destruct (foldl_sessionTimeout_frame l w) as [Ho Hc]. fold w1 in Ho, Hc.
    destruct (decide (_id x = _id y)) as [Heq|Hne].
    + exists (next_handle w1). rewrite Heq, <- Ho, <- Hc.
      by apply sessionTimeout_live_timers.
    + apply elem_of_app in Hx as [Hx|Hx%list_elem_of_singleton]; [|by subst].
      destruct (IH x Hx) as [h Hh]. exists h.
      apply sessionTimeout_live_timers_other; [done | | done].
      rewrite Ho. intros Hk. by apply pSid_inj in Hk.
Qed.

(** X12. The recovery scan of a store without prefix: when the search
    lists the documents of the index, every document [id] gets exactly one
    live timer, armed for the TTL, and the closure of that timer destroys
    [id]. *)
Lemma recovery_scan_without_prefix (fmt : Z -> string) (u : user_options)
    (now : Z) (hp : gmap loc obj) (n : handle) (d : gmap string obj) :
  u_prefix u = None ->
  let w := (reply fmt 0 None (ESStore u now hp n d)).2 in
  forall id, is_Some (d !! id) ->
    exists h,
      live_timers w id = [(h, Timer now (ttl (extend defaults u)) id)] /\
      events_since w (fire h w) =
        [EvRequest (ClientDelete (index (extend defaults u))
                                 (typeName (extend defaults u)) id)
                   (KDestroy None)].
Proof.
  intros Hu w id [src Hsrc].
  set (w0 := World (extend defaults u) ∅ now hp ∅ n [] d
               [EvRequest (ClientSearch (index (extend defaults u))
                             (typeName (extend defaults u))) KScan]).
  set (l := Hit <$> (map_to_list d).*1).
  assert (Hw : w = foldl (fun acc y => sessionTimeout (_id y) acc) w0 l)
    by reflexivity.
  assert (Hinv0 : timers_tracked w0).
  { split; [|split]; [intros h t | intros k h | intros k h t]; simpl;
      by rewrite lookup_empty. }
  assert (Hin : Hit id ∈ l).
  { subst l. apply list_elem_of_fmap_2.
    apply list_elem_of_fmap. exists (id, src). split; [done|].
    by apply elem_of_map_to_list. }
  assert (Hp : pSid (opts w0) id = id).
  { apply pSid_no_prefix. simpl. by rewrite Hu. }
  destruct (foldl_sessionTimeout_live_timers l w0 Hinv0 (Hit id) Hin)
    as [h Hh].
  change (live_timers (foldl (fun acc y => sessionTimeout (_id y) acc) w0 l)
            (pSid (opts w0) id) =
          [(h, Timer now (ttl (extend defaults u)) id)]) in Hh.
  rewrite Hp, <- Hw in Hh.
  exists h. split; [exact Hh|].
  assert (Hlive : (h, Timer now (ttl (extend defaults u)) id) ∈ live_timers w id)
    by (rewrite Hh; left).
  apply elem_of_live_timers in Hlive as [Hlive _].
  apply events_since_app. rewrite (fire_unfold h _ w Hlive).
  destruct (foldl_sessionTimeout_frame l w0) as [Ho _]. rewrite <- Hw in Ho.
  unfold destroy.
  replace (opts (set_pending (delete h (pending w)) w)) with (opts w0)
    by (rewrite <- Ho; by destruct w).
  cbn [timer_sid]. rewrite Hp. by destruct w.
Qed.

(** ** Where the code departs from the specification *)

(** C2. [set] arms no timer.  On the example store, [set("abc", {user: 1},
    cb)] and its reply write the stamped document and call [cb(undefined)],
    and afterwards no timer is live, [this.timeouts] is empty and the trace
    has no [setTimeout]. *)
Theorem set_arms_no_timer :
  let w := run demo_toString
             [CallSet "abc" 0%nat (Some "cb"); Reply 1 None] demo_store in
  events_since demo_store w =
    [EvRequest (ClientIndex "express" "session" "abc"
                  [("user", JNum 1); ("timestamp", JNum 0)])
               (KSet (Some "cb"));
     EvCallback "cb" [AUndefined]] /\
  docs w !! "abc" = Some [("user", JNum 1); ("timestamp", JNum 0)] /\
  live_timers w "abc" = [] /\
  pending w = ∅ /\ timeouts w = ∅.
Proof. repeat split; vm_compute; reflexivity. Qed.

(** C4. [destroy] clears no timer.  On the example store, after
    [set("abc")], [touch("abc")] (which arms timer 0) and
    [destroy("abc", done)] with its reply, the document is gone and [done]
    was called, yet timer 0 is still live and in the map, no
    [clearTimeout] happened, and when the timer fires it issues a second
    delete request for "abc". *)
Theorem destroy_leaves_timer_live :
  let w := run demo_toString
             [CallSet "abc" 0%nat (Some "cb"); Reply 1 None;
              CallTouch "abc" 0%nat None;
              CallDestroy "abc" (Some "done"); Reply 2 None] demo_store in
  docs w !! "abc" = None /\
  last (trace w) =
    Some (EvCallback "done" [AUndefined; ABody ack]) /\
  live_timers w "abc" = [(0%nat, Timer 0 1000 "abc")] /\
  timeouts w !! "abc" = Some 0%nat /\
  (forall h, EvClearTimeout h ∉ trace w) /\
  events_since w (fire 0%nat w) =
    [EvRequest (ClientDelete "express" "session" "abc") (KDestroy None)].
Proof.
  repeat split; try (vm_compute; reflexivity).
  intros h Hin. vm_compute in Hin.
  repeat (apply elem_of_cons in Hin as [Hin|Hin]; [discriminate Hin|]).
  by apply not_elem_of_nil in Hin.
Qed.

(** C6. With a prefix, the recovery scan prefixes the storage keys a second
    time.  On the store with prefix "sess:" whose index holds "sess:abc",
    the reply of the scan arms one timer, under the key "sess:sess:abc";
    no live timer destroys "sess:abc"; when the timer fires it asks to
    delete "sess:sess:abc", and after that request is answered the
    document "sess:abc" is still in the index. *)
Theorem recovery_scan_prefixes_twice :
  let w := run demo_toString [Reply 0 None] prefixed_store in
  let w' := run demo_toString [Fire 0%nat; Reply 0 None] w in
  events_since prefixed_store w = [EvSetTimeout 0%nat "sess:abc" 1000] /\
  timeouts w !! "sess:abc" = None /\
  timeouts w !! "sess:sess:abc" = Some 0%nat /\
  live_timers w "sess:abc" = [] /\
  events_since w w' =
    [EvRequest (ClientDelete "express" "session" "sess:sess:abc")
               (KDestroy None)] /\
  docs w' !! "sess:abc" = Some [("user", JNum 7)] /\
  pending w' = ∅.
Proof. repeat split; vm_compute; reflexivity. Qed.

(** C7. The function that receives the reply of the scan throws when the
    search failed: it logs the error and then reads [r.hits.hits], both
    when there is no body and when the body has no [hits].  On the example
    store a scan that meets a fault ends in that throw. *)
Theorem scan_failure_throws :
  (forall err w,
     scan_reply (Some err) None w =
       (ThrowTypeError, emit (EvConsoleError err) w)) /\
  (forall err w,
     scan_reply (Some err) (Some ack) w =
       (ThrowTypeError, emit (EvConsoleError err) w)) /\
  (forall fmt err,
     (reply fmt 0 (Some err) demo_store).1 = ThrowTypeError).
Proof. split; [|split]; intros; reflexivity. Qed.

(** ** The theorems at work on the example store *)

(** After two touches on "abc", 10 ms apart, "abc" has at most one live
    timer. *)
Lemma one_live_timer_witness :
  reachable demo_toString touched_twice /\
  (List.length (live_timers touched_twice "abc") <= 1)%nat.
Proof.
  assert (Hreach : reachable demo_toString touched_twice).
  { unfold touched_twice. do 3 apply reach_step. apply reach_new. }
  split; [exact Hreach|].
  exact (proj1 (one_live_timer_per_key demo_toString touched_twice Hreach)
               "abc").
Defined.

(** The scenario of the specification: TTL 1000, [set("abc", {user: 1})]
    at 0, [get("abc")] at 500. *)
Lemma set_then_get_witness :
  last (trace (run demo_toString
                 [CallSet "abc" 0%nat (Some "cb"); Reply 1 None; Tick 500;
                  CallGet "abc" (Some "g"); Reply 1 None] demo_store)) =
  Some (EvCallback "g"
          [ANull; AObject [("user", JNum 1); ("timestamp", JNum 0)]]).
Proof.
  apply (proj1 (set_then_get_roundtrip demo_toString demo_store "abc" 0%nat
                  [("user", JNum 1)] (Some "cb") "g" 500%nat
                  eq_refl eq_refl)).
Defined.

(** [set] at time 7 on an object that already has a [timestamp]. *)
Lemma set_stamps_witness :
  heap (set "abc" 0%nat None stamped_world).2 !! 0%nat =
  Some [("timestamp", JNum 7); ("user", JNum 1)].
Proof.
  assert (HP : heap stamped_world !! 0%nat =
               Some [("timestamp", JStr "mine"); ("user", JNum 1)])
    by (vm_compute; reflexivity).
  exact (proj1 (set_stamps_caller_object "abc" 0%nat None stamped_world
                  [("timestamp", JStr "mine"); ("user", JNum 1)] HP)).
Defined.

(** * Further properties of the store *)

(** ** The key codec *)

(** X1. For a fixed prefix, [pSid] sends different session ids to
    different storage keys. *)
Theorem pSid_injective (o : options) (a b : string) :
  pSid o a = pSid o b <-> a = b.
Proof. split; [apply pSid_inj | by intros ->]. Qed.

(** X2. [pSid] leaves an id as it is exactly when the prefix is empty. *)
Theorem pSid_identity_iff (o : options) (sid : string) :
  pSid o sid = sid <-> prefix o = "".
Proof.
  split.
  - intros Heq. destruct (decide (prefix o = "")) as [|Hne]; [done|].
    by destruct (pSid_with_prefix o sid Hne).
  - apply pSid_no_prefix.
Qed.

(** ** The configuration *)

Lemma deliver_opts (k : kont) (e : option es_error) (r : option body)
    (w : world) :
  opts (deliver k e r w).2 = opts w.
Proof.
  destruct k; simpl.
  - apply (same_timers_get_reply cb e r w).
  - apply (same_timers_invoke cb _ w).
  - apply (same_timers_invoke cb _ w).
  - apply (same_timers_invoke cb _ w).
  - unfold scan_reply.
    set (w1 := match e with Some err => emit (EvConsoleError err) w | None => w end).
    assert (H1 : opts w1 = opts w) by (subst w1; destruct e; by destruct w).
    destruct r as [b|]; [|done].
    destruct (hits b) as [ho|]; [|done].
    destruct (hits_hits ho) as [l|]; [|done].
    simpl. by rewrite (proj1 (foldl_sessionTimeout_frame l w1)).
Qed.

Lemma step_opts (fmt : Z -> string) (a : action) (w : world) :
  opts (step fmt a w).2 = opts w.
Proof.
  destruct a; simpl.
  - by destruct w.
  - apply (same_timers_set sid sess cb w).
  - by destruct w.
  - apply (touch_opts sid sess cb w).
  - unfold reply. destruct (inflight w !! i) as [[q k]|]; [|done].
    destruct (es_exec fmt (docs w) q fault) as [d' [e r]].
    rewrite deliver_opts. by destruct w.
  - apply (fire_pending h w).
  - by destruct w.
  - destruct (heap w !! l); [|done]. by destruct w.
Qed.

Lemma run_opts (fmt : Z -> string) (acts : list action) (w : world) :
  opts (run fmt acts w) = opts w.
Proof.
  revert w. induction acts as [|a acts IH]; intros w; [done|].
  change (run fmt (a :: acts) w) with (run fmt acts (step fmt a w).2).
  by rewrite IH, step_opts.
Qed.

(** X3. The configuration is fixed at construction: after any run of
    calls, replies, timer firings and clock ticks, [this.options] is still
    the defaults overridden by the keys given to the constructor. *)
Theorem options_never_change (fmt : Z -> string) (acts : list action)
    (u : user_options) (now : Z) (hp : gmap loc obj) (n : handle)
    (d : gmap string obj) :
  opts (run fmt acts (ESStore u now hp n d)) = extend defaults u.
Proof. by rewrite run_opts. Qed.

(** ** Calls followed by their replies *)

Lemma run_cons (fmt : Z -> string) (a : action) (acts : list action)
    (w : world) :
  run fmt (a :: acts) w = run fmt acts (step fmt a w).2.
Proof. reflexivity. Qed.

Lemma send_then_reply (fmt : Z -> string) (q : request) (k : kont)
    (fault : option es_error) (w : world) :
  reply fmt (List.length (inflight w)) fault (send q k w) =
    deliver k (es_exec fmt (docs w) q fault).2.1
              (es_exec fmt (docs w) q fault).2.2
              (set_docs (es_exec fmt (docs w) q fault).1
                 (emit (EvRequest q k) w)).
Proof.
  rewrite (reply_newest fmt fault _ (inflight w) q k) by (by destruct w).
  replace (docs (send q k w)) with (docs w) by (by destruct w).
  destruct (es_exec fmt (docs w) q fault) as [d' [e r]]. simpl.
  by destruct w.
Qed.

(** The state after [set] and the reply to its request. *)
Lemma set_phase (fmt : Z -> string) (w : world) (sid : string) (sess : loc)
    (cb : callback) (P : obj) (fault : option es_error) :
  heap w !! sess = Some P ->
  let P' := set_field P "timestamp" (JNum (clock w)) in
  let w' := (reply fmt (List.length (inflight w)) fault
               (set sid sess cb w).2).2 in
  opts w' = opts w /\ clock w' = clock w /\ inflight w' = inflight w /\
  heap w' = <[sess := P']> (heap w) /\
  docs w' = match fault with
            | None => <[pSid (opts w) sid := P']> (docs w)
            | Some _ => docs w
            end /\
  trace w' =
    trace w ++
    [EvRequest (ClientIndex (index (opts w)) (typeName (opts w))
                            (pSid (opts w) sid) P') (KSet cb)] ++
    match cb with
    | Some f => [EvCallback f [arg_of_error fault]]
    | None => []
    end.
Proof.
  intros HP P' w'. subst w'.
  rewrite (set_unfold sid sess cb w P HP). fold P'. cbn [snd].
  set (w0 := set_heap (<[sess:=P']> (heap w)) w).
  replace (List.length (inflight w)) with (List.length (inflight w0))
    by (by destruct w).
  rewrite send_then_reply.
  replace (docs w0) with (docs w) by (by destruct w).
  destruct fault as [err|], cb as [f|], w; simpl;
    rewrite <- ?app_assoc; repeat split; by rewrite ?app_nil_r.
Qed.

(** The state after [get] and the reply to its request, without fault. *)
Lemma get_phase (fmt : Z -> string) (w : world) (sid : string) (g : string) :
  let key := pSid (opts w) sid in
  let w' := (reply fmt (List.length (inflight w)) None
               (get sid (Some g) w)).2 in
  docs w' = docs w /\ heap w' = heap w /\ opts w' = opts w /\
  inflight w' = inflight w /\
  last (trace w') =
    Some (EvCallback g
            match docs w !! key with
            | Some src =>
                if minus_gt (clock w) (to_number (get_field src "timestamp"))
                            (ttl (opts w))
                then []
                else [ANull; AObject src]
            | None => []
            end).
Proof.
  intros key w'. subst w'. unfold get. rewrite send_then_reply.
  fold key. cbn [es_exec].
  destruct (docs w !! key) as [src|] eqn:Hd; cbn [fst snd deliver get_reply _source].
  - replace (clock (set_docs _ _)) with (clock w) by (by destruct w).
    replace (opts (set_docs _ _)) with (opts w) by (by destruct w).
    destruct (minus_gt _ _ _); destruct w; simpl; repeat split;
      apply last_snoc.
  - destruct w; simpl; repeat split. apply last_snoc.
Qed.

(** The state after [touch] and the reply to its request: whatever the
    outcome of the update, the stored document keeps its [timestamp]. *)
Lemma touch_phase (fmt : Z -> string) (w : world) (sid : string) (sess : loc)
    (cb : callback) (fault : option es_error) :
  let key := pSid (opts w) sid in
  let w' := (reply fmt (List.length (inflight w)) fault
               (touch sid sess cb w)).2 in
  opts w' = opts w /\ clock w' = clock w /\ inflight w' = inflight w /\
  heap w' = heap w /\
  (forall src, docs w !! key = Some src ->
     exists src', docs w' !! key = Some src' /\
                  get_field src' "timestamp" = get_field src "timestamp").
Proof.
  intros key w'. subst w'. unfold touch.
  rewrite sessionTimeout_opts, sessionTimeout_clock. fold key.
  set (q := ClientUpdate _ _ _ _). set (w0 := sessionTimeout sid w).
  assert (Ho : opts w0 = opts w) by apply sessionTimeout_opts.
  assert (Hc : clock w0 = clock w) by apply sessionTimeout_clock.
  assert (Hi : inflight w0 = inflight w) by apply sessionTimeout_inflight.
  assert (Hh : heap w0 = heap w) by apply sessionTimeout_heap.
  assert (Hd : docs w0 = docs w) by apply sessionTimeout_docs.
  rewrite <- Hi, send_then_reply, Hd.
  destruct (es_exec fmt (docs w) q fault) as [d' [e r]] eqn:Hexec.
  cbn [fst snd deliver]. unfold touch_reply.
  split; [|split; [|split; [|split]]].
  - rewrite <- Ho. by destruct cb, w0.
  - rewrite <- Hc. by destruct cb, w0.
  - by destruct cb, w0.
  - rewrite <- Hh. by destruct cb, w0.
  - intros src Hsrc.
    replace (docs (invoke cb [arg_of_error e; arg_of_body r]
                     (set_docs d' (emit (EvRequest q (KTouch cb)) w0))))
      with d' by (by destruct cb, w0).
    subst q. destruct fault as [err|]; cbn [es_exec] in Hexec.
    + assert (d' = docs w) as -> by congruence. by exists src.
    + rewrite Hsrc in Hexec. cbn [inline params_now] in Hexec.
      rewrite String.eqb_refl in Hexec.
      destruct (run_touch_script fmt (clock w) src) as [src'|] eqn:Hrun.
      * assert (d' = <[key := src']> (docs w)) as -> by congruence.
        exists src'. rewrite lookup_insert_eq. split; [done|].
        destruct (run_touch_script_only_expires _ _ _ _ Hrun)
          as (c & n & _ & _ & _ & Hrest).
        by apply Hrest.
      * assert (d' = docs w) as -> by congruence. by exists src.
Qed.

(** The state after [destroy] and the reply to its request, without
    fault. *)
Lemma destroy_phase (fmt : Z -> string) (w : world) (sid : string)
    (cb : callback) :
  let key := pSid (opts w) sid in
  let w' := (reply fmt (List.length (inflight w)) None
               (destroy sid cb w)).2 in
  opts w' = opts w /\ clock w' = clock w /\ inflight w' = inflight w /\
  docs w' = delete key (docs w) /\
  same_timers w w'.
Proof.
  intros key w'. subst w'. unfold destroy. rewrite send_then_reply.
  fold key. cbn [es_exec].
  destruct (docs w !! key) as [src|] eqn:Hd;
    cbn [fst snd deliver]; unfold destroy_reply.
  - destruct cb, w; simpl; repeat split.
  - rewrite (delete_id (docs w) key Hd). destruct cb, w; simpl; repeat split.
Qed.

(** ** Expiry on the read path *)

(** X4. [set(id, P)], its reply, and [ms] milliseconds later [get(id)]
    with its reply: the callback of [get] receives the stamped payload when
    [ms] is at most the TTL, the TTL itself included, and nothing when [ms]
    is above it.  In both cases the document is still in the index: the
    read path hides an expired record, it does not delete it. *)
Theorem get_after_set_expiry (fmt : Z -> string) (w : world) (sid : string)
    (sess : loc) (P : obj) (cb : callback) (g : string) (ms : nat)
    (HP : heap w !! sess = Some P) :
  let n := List.length (inflight w) in
  let P' := set_field P "timestamp" (JNum (clock w)) in
  let w1 := run fmt [CallSet sid sess cb; Reply n None; Tick ms;
                     CallGet sid (Some g); Reply n None] w in
  last (trace w1) =
    Some (EvCallback g (if Z.of_nat ms <=? ttl (opts w)
                        then [ANull; AObject P'] else [])) /\
  docs w1 !! pSid (opts w) sid = Some P'.
Proof.
  intros n P' w1. subst w1 n. rewrite !run_cons. cbn [step].
  destruct (set_phase fmt w sid sess cb P None HP)
    as (Ho & Hc & Hi & _ & Hd & _).
  fold P' in Hd.
  set (wa := (reply fmt _ None (set sid sess cb w).2).2) in *.
  set (wb := set_clock (clock wa + Z.of_nat ms) wa).
  assert (Hob : opts wb = opts w) by (rewrite <- Ho; by destruct wa).
  assert (Hcb : clock wb = clock w + Z.of_nat ms)
    by (rewrite <- Hc; by destruct wa).
  assert (Hib : inflight wb = inflight w) by (rewrite <- Hi; by destruct wa).
  assert (Hdb : docs wb = <[pSid (opts w) sid := P']> (docs w))
    by (rewrite <- Hd; by destruct wa).
  cbn [snd]. rewrite <- Hib.
  destruct (get_phase fmt wb sid g) as (Hd' & _ & _ & _ & Hlast).
  unfold run. cbn [foldl].
  split.
  - rewrite Hlast, Hob, Hcb, Hdb, lookup_insert_eq.
    subst P'. rewrite get_set_field_eq. cbn [to_number to_number_value minus_gt].
    destruct (Z.leb_spec (Z.of_nat ms) (ttl (opts w))) as [Hle|Hgt].
    + replace (ttl (opts w) <? clock w + Z.of_nat ms - clock w) with false
        by (symmetry; apply Z.ltb_ge; lia). done.
    + replace (ttl (opts w) <? clock w + Z.of_nat ms - clock w) with true
        by (symmetry; apply Z.ltb_lt; lia). done.
  - rewrite Hd', Hdb. apply lookup_insert_eq.
Qed.

Lemma tick_fields (ms : nat) (w : world) :
  let w' := set_clock (clock w + Z.of_nat ms) w in
  opts w' = opts w /\ clock w' = clock w + Z.of_nat ms /\
  inflight w' = inflight w /\ heap w' = heap w /\ docs w' = docs w.
Proof. by destruct w. Qed.

(** X5. [touch] does not move the read-side expiry.  After [set(id, P)]
    at time t, a [touch(id)] [a] ms later (whatever the outcome of its
    update) and a [get(id)] another [b] ms later: [get] reports absent as
    soon as [a + b] exceeds the TTL, as if the touch had not happened, and
    when it reports the record, the record still carries the [timestamp]
    of the [set]. *)
Theorem touch_does_not_extend_read_expiry (fmt : Z -> string) (w : world)
    (sid : string) (sess : loc) (P : obj) (cb cb2 : callback) (g : string)
    (a b : nat) (fault : option es_error)
    (HP : heap w !! sess = Some P) :
  let n := List.length (inflight w) in
  let w1 := run fmt [CallSet sid sess cb; Reply n None; Tick a;
                     CallTouch sid sess cb2; Reply n fault; Tick b;
                     CallGet sid (Some g); Reply n None] w in
  (ttl (opts w) < Z.of_nat a + Z.of_nat b ->
   last (trace w1) = Some (EvCallback g [])) /\
  (Z.of_nat a + Z.of_nat b <= ttl (opts w) ->
   exists src,
     last (trace w1) = Some (EvCallback g [ANull; AObject src]) /\
     get_field src "timestamp" = Some (JNum (clock w))).
Proof.
  intros n w1. subst w1 n. rewrite !run_cons. cbn [step snd].
  destruct (set_phase fmt w sid sess cb P None HP)
    as (Ho1 & Hc1 & Hi1 & _ & Hd1 & _).
  set (w_set := (reply fmt _ None (set sid sess cb w).2).2) in *.
  destruct (tick_fields a w_set) as (Ho2 & Hc2 & Hi2 & _ & Hd2).
  set (w_a := set_clock (clock w_set + Z.of_nat a) w_set) in *.
  rewrite <- Hi1, <- Hi2.
  destruct (touch_phase fmt w_a sid sess cb2 fault)
    as (Ho3 & Hc3 & Hi3 & _ & Hd3).
  set (w_touch := (reply fmt _ fault (touch sid sess cb2 w_a)).2) in *.
  destruct (tick_fields b w_touch) as (Ho4 & Hc4 & Hi4 & _ & Hd4).
  set (w_b := set_clock (clock w_touch + Z.of_nat b) w_touch) in *.
  rewrite <- Hi3, <- Hi4.
  destruct (get_phase fmt w_b sid g) as (_ & _ & _ & _ & Hlast).
  unfold run. cbn [foldl]. rewrite Hlast. clear Hlast.
  assert (Hopts : opts w_b = opts w) by congruence.
  assert (Hclock : clock w_b = clock w + Z.of_nat a + Z.of_nat b)
    by (rewrite Hc4, Hc3, Hc2, Hc1; lia).
  destruct (Hd3 (set_field P "timestamp" (JNum (clock w)))) as (src & Hsrc & Hts).
  { rewrite Hd2, Hd1, Ho2, Ho1. apply lookup_insert_eq. }
  rewrite get_set_field_eq in Hts.
  rewrite Hopts, Hd4. rewrite Ho2, Ho1 in Hsrc. rewrite Hsrc, Hts, Hclock.
  cbn [to_number to_number_value minus_gt].
  split.
  - intros Hlate.
    replace (ttl (opts w) <? _) with true
      by (symmetry; apply Z.ltb_lt; lia). done.
  - intros Hearly. exists src.
    replace (ttl (opts w) <? _) with false
      by (symmetry; apply Z.ltb_ge; lia). done.
Qed.

(** X6. [destroy(id)] and its reply, then [get(id)] and its reply: the
    callback of [get] receives nothing, whether or not a record was stored
    under the id, and the index holds no document under the key. *)
Theorem get_after_destroy_absent (fmt : Z -> string) (w : world)
    (sid : string) (cb : callback) (g : string) :
  let n := List.length (inflight w) in
  let w1 := run fmt [CallDestroy sid cb; Reply n None;
                     CallGet sid (Some g); Reply n None] w in
  last (trace w1) = Some (EvCallback g []) /\
  docs w1 !! pSid (opts w) sid = None.
Proof.
  intros n w1. subst w1 n. rewrite !run_cons. cbn [step snd].
  destruct (destroy_phase fmt w sid cb) as (Ho & _ & Hi & Hd & _).
  set (wd := (reply fmt _ None (destroy sid cb w)).2) in *.
  rewrite <- Hi.
  destruct (get_phase fmt wd sid g) as (Hd' & _ & _ & _ & Hlast).
  unfold run. cbn [foldl]. split.
  - rewrite Hlast, Ho, Hd, lookup_delete_eq. done.
  - rewrite Hd', Hd. apply lookup_delete_eq.
Qed.

(** ** Writes *)

(** X7. A second [set] on the same id replaces the stored record as a
    whole: after [set(id, P)], and [ms] ms later [set(id, Q)], a [get(id)]
    reports [Q] with the timestamp of the second call, and nothing of [P].
    The TTL must not be negative, or every record is expired at once. *)
Theorem set_replaces_whole_record (fmt : Z -> string) (w : world)
    (sid : string) (l1 l2 : loc) (P Q : obj) (cb1 cb2 : callback)
    (g : string) (ms : nat)
    (H1 : heap w !! l1 = Some P) (H2 : heap w !! l2 = Some Q)
    (Hne : l1 <> l2) (Httl : 0 <= ttl (opts w)) :
  let n := List.length (inflight w) in
  let Q' := set_field Q "timestamp" (JNum (clock w + Z.of_nat ms)) in
  let w1 := run fmt [CallSet sid l1 cb1; Reply n None; Tick ms;
                     CallSet sid l2 cb2; Reply n None;
                     CallGet sid (Some g); Reply n None] w in
  last (trace w1) = Some (EvCallback g [ANull; AObject Q']) /\
  docs w1 !! pSid (opts w) sid = Some Q'.
Proof.
  intros n Q' w1. subst w1 n. rewrite !run_cons. cbn [step snd].
  destruct (set_phase fmt w sid l1 cb1 P None H1)
    as (Ho1 & Hc1 & Hi1 & Hh1 & Hd1 & _).
  set (w_p := (reply fmt _ None (set sid l1 cb1 w).2).2) in *.
  destruct (tick_fields ms w_p) as (Ho2 & Hc2 & Hi2 & Hh2 & Hd2).
  set (w_t := set_clock (clock w_p + Z.of_nat ms) w_p) in *.
  rewrite <- Hi1, <- Hi2.
  assert (HQ : heap w_t !! l2 = Some Q).
  { rewrite Hh2, Hh1. by rewrite lookup_insert_ne. }
  destruct (set_phase fmt w_t sid l2 cb2 Q None HQ)
    as (Ho3 & Hc3 & Hi3 & _ & Hd3 & _).
  set (w_q := (reply fmt _ None (set sid l2 cb2 w_t).2).2) in *.
  rewrite <- Hi3.
  destruct (get_phase fmt w_q sid g) as (Hd' & _ & _ & _ & Hlast).
  unfold run. cbn [foldl].
  assert (Hopts : opts w_q = opts w) by congruence.
  assert (Hclock : clock w_q = clock w + Z.of_nat ms) by congruence.
  assert (Hdocs : docs w_q !! pSid (opts w) sid = Some Q').
  { rewrite Hd3, Ho2, Ho1, Hc2, Hc1. apply lookup_insert_eq. }
  split.
  - rewrite Hlast, Hopts, Hdocs, Hclock. subst Q'.
    rewrite get_set_field_eq. cbn [to_number to_number_value minus_gt].
    replace (ttl (opts w) <? _) with false
      by (symmetry; apply Z.ltb_ge; lia). done.
  - by rewrite Hd'.
Qed.

(** X8. When the write of [set] fails, the callback receives the error
    and the index is as before, but the caller's session object has been
    stamped all the same. *)
Theorem failed_set_still_stamps (fmt : Z -> string) (w : world)
    (sid : string) (sess : loc) (P : obj) (f : string) (err : es_error)
    (HP : heap w !! sess = Some P) :
  let w1 := run fmt [CallSet sid sess (Some f);
                     Reply (List.length (inflight w)) (Some err)] w in
  last (trace w1) = Some (EvCallback f [AError err]) /\
  docs w1 = docs w /\
  heap w1 !! sess = Some (set_field P "timestamp" (JNum (clock w))).
Proof.
  intros w1. subst w1. rewrite !run_cons. cbn [step snd].
  destruct (set_phase fmt w sid sess (Some f) P (Some err) HP)
    as (_ & _ & _ & Hh & Hd & Htr).
  unfold run. cbn [foldl]. split; [|split].
  - rewrite Htr, app_assoc. apply last_snoc.
  - done.
  - rewrite Hh. apply lookup_insert_eq.
Qed.

(** ** Timers *)

Lemma sessionTimeout_live_timers_frame (sid : string) (w : world)
    (key : string) :
  timers_tracked w -> key <> pSid (opts w) sid ->
  live_timers (sessionTimeout sid w) key = live_timers w key.
Proof.
  intros Hinv Hne.
  destruct (live_timers w key) as [|[h t] l] eqn:E.
  - destruct (live_timers (sessionTimeout sid w) key) as [|[h t] l'] eqn:E';
      [done|].
    assert (Hin : (h, t) ∈ live_timers (sessionTimeout sid w) key)
      by (rewrite E'; left).
    apply elem_of_live_timers in Hin as [Hp Hkey].
    rewrite sessionTimeout_opts in Hkey.
    rewrite sessionTimeout_pending in Hp.
    destruct (decide (h = next_handle w)) as [->|Hh].
    + rewrite lookup_insert_eq in Hp. injection Hp as <-. by destruct Hne.
    + rewrite lookup_insert_ne in Hp by done.
      assert (Hold : pending w !! h = Some t).
      { destruct (timeouts w !! pSid (opts w) sid); [|done].
        by apply lookup_delete_Some in Hp as [_ Hp]. }
      assert (Hin : (h, t) ∈ live_timers w key)
        by by apply elem_of_live_timers.
      rewrite E in Hin. by apply not_elem_of_nil in Hin.
  - pose proof (tracked_at_most_one w key Hinv) as Hlen. rewrite E in Hlen.
    destruct l; [|simpl in Hlen; lia].
    by apply sessionTimeout_live_timers_other.
Qed.

(** X9. Rescheduling is local to its key: a [touch] on one id leaves the
    live timers of every other storage key as they are. *)
Theorem touch_leaves_other_keys (fmt : Z -> string) (w : world)
    (sid : string) (sess : loc) (cb : callback) (key : string)
    (Hreach : reachable fmt w) (Hne : key <> pSid (opts w) sid) :
  live_timers (touch sid sess cb w) key = live_timers w key.
Proof.
  unfold touch.
  rewrite (live_timers_same (sessionTimeout sid w)) by apply same_timers_send.
  apply sessionTimeout_live_timers_frame; [|done].
  by apply (reachable_tracked fmt).
Qed.

(** X10. A timer that a [touch] has replaced cannot fire any more: firing
    the handle that the map held for the key before the [touch] changes
    nothing, so no stale timer destroys the refreshed record. *)
Theorem replaced_timer_cannot_fire (fmt : Z -> string) (w : world)
    (sid : string) (sess : loc) (cb : callback) (h : handle)
    (Hreach : reachable fmt w)
    (Hk : timeouts w !! pSid (opts w) sid = Some h) :
  fire h (touch sid sess cb w) = touch sid sess cb w.
Proof.
  unfold fire.
  rewrite (proj1 (touch_pending sid sess cb w)).
  rewrite (sessionTimeout_clears sid w h); [done | | done].
  by apply (reachable_tracked fmt).
Qed.

Lemma timers_for_ttl_frame (w w' : world) :
  pending w' = pending w -> opts w' = opts w -> clock w <= clock w' ->
  timers_for_ttl w -> timers_for_ttl w'.
Proof.
  intros Hp Ho Hc Hinv h t. rewrite Hp, Ho. intros Hh.
  destruct (Hinv h t Hh). split; [done | lia].
Qed.

Lemma timers_for_ttl_sessionTimeout (sid : string) (w : world) :
  timers_for_ttl w -> timers_for_ttl (sessionTimeout sid w).
Proof.
  intros Hinv h t.
  rewrite sessionTimeout_pending, sessionTimeout_opts, sessionTimeout_clock.
  destruct (decide (h = next_handle w)) as [->|Hne].
  - rewrite lookup_insert_eq. intros [= <-]. simpl. split; [done | lia].
  - rewrite lookup_insert_ne by done. intros Hh. apply (Hinv h t).
    destruct (timeouts w !! pSid (opts w) sid); [|done].
    by apply lookup_delete_Some in Hh as [_ Hh].
Qed.

Lemma timers_for_ttl_foldl (l : list hit) (w : world) :
  timers_for_ttl w ->
  timers_for_ttl (foldl (fun acc x => sessionTimeout (_id x) acc) w l).
Proof.
  revert w. induction l as [|x l IH]; intros w Hinv; simpl; [done|].
  by apply IH, timers_for_ttl_sessionTimeout.
Qed.

Lemma invoke_frame (cb : callback) (args : list arg) (w : world) :
  pending (invoke cb args w) = pending w /\
  opts (invoke cb args w) = opts w /\
  clock (invoke cb args w) = clock w.
Proof. by destruct cb, w. Qed.

Lemma timers_for_ttl_deliver (k : kont) (e : option es_error)
    (r : option body) (w : world) :
  timers_for_ttl w -> timers_for_ttl (deliver k e r w).2.
Proof.
  intros Hinv.
  assert (Hinvoke : forall cb args, timers_for_ttl (invoke cb args w)).
  { intros cb args. destruct (invoke_frame cb args w) as (Hp & Ho & Hc).
    apply (timers_for_ttl_frame w); [done | done | lia | done]. }
  destruct k; simpl; try apply Hinvoke.
  - unfold get_reply.
    destruct e; [|destruct r as [b|]; [destruct (_source b)|]]; simpl;
      try destruct (minus_gt _ _ _); simpl; first [apply Hinvoke | done].
  - unfold scan_reply.
    set (w1 := match e with Some err => emit (EvConsoleError err) w | None => w end).
    assert (H1 : timers_for_ttl w1).
    { subst w1. destruct e; [|done].
      apply (timers_for_ttl_frame w); [by destruct w | by destruct w | | done].
      destruct w; simpl; lia. }
    destruct r as [b|]; [|done].
    destruct (hits b) as [ho|]; [|done].
    destruct (hits_hits ho) as [l|]; [|done].
    simpl. by apply timers_for_ttl_foldl.
Qed.

Lemma timers_for_ttl_step (fmt : Z -> string) (a : action) (w : world) :
  timers_for_ttl w -> timers_for_ttl (step fmt a w).2.
Proof.
  intros Hinv. destruct a; simpl.
  - apply (timers_for_ttl_frame w); [by destruct w | by destruct w | | done].
    destruct w; simpl; lia.
  - unfold set. destruct (heap w !! sess); simpl; [|done].
    apply (timers_for_ttl_frame w); [by destruct w | by destruct w | | done].
    destruct w; simpl; lia.
  - apply (timers_for_ttl_frame w); [by destruct w | by destruct w | | done].
    destruct w; simpl; lia.
  - unfold touch.
    apply (timers_for_ttl_frame (sessionTimeout sid w));
      [by destruct (sessionTimeout sid w) | by destruct (sessionTimeout sid w)
       | | by apply timers_for_ttl_sessionTimeout].
    destruct (sessionTimeout sid w); simpl; lia.
  - unfold reply. destruct (inflight w !! i) as [[q k]|]; [|done].
    destruct (es_exec fmt (docs w) q fault) as [d' [e r]].
    apply timers_for_ttl_deliver.
    apply (timers_for_ttl_frame w); [by destruct w | by destruct w | | done].
    destruct w; simpl; lia.
  - intros h' t. destruct (fire_pending h w) as (Hp & _ & Ho & _).
    rewrite Hp, Ho. intros Hh. apply lookup_delete_Some in Hh as [_ Hh].
    destruct (Hinv h' t Hh) as [Hd Ha]. split; [done|].
    unfold fire. destruct (pending w !! h); [|done]. by destruct w.
  - apply (timers_for_ttl_frame w); [by destruct w | by destruct w | | done].
    destruct w; simpl; lia.
  - destruct (heap w !! l); simpl; [|done].
    apply (timers_for_ttl_frame w); [by destruct w | by destruct w | | done].
    destruct w; simpl; lia.
Qed.

(** X11. In every state that a store reaches, every live timer was armed
    for exactly the configured TTL, at a time that is not in the future:
    no timer is ever armed for the remainder of a record's life, not by
    the recovery scan either. *)
Theorem live_timers_armed_for_ttl (fmt : Z -> string) (w : world)
    (Hreach : reachable fmt w) (h : handle) (t : timer)
    (Hlive : pending w !! h = Some t) :
  delay t = ttl (opts w) /\ armed_at t <= clock w.
Proof.
  revert h t Hlive. change (timers_for_ttl w).
  induction Hreach as [u now hp n d | a w _ IH].
  - intros h t. simpl. by rewrite lookup_empty.
  - by apply timers_for_ttl_step.
Qed.

(** ** The recovery scan, with any prefix *)

(** X13. Whatever the prefix and whether or not the search reported an
    error, a reply of the scan that carries a list of hits does not throw,
    and each hit gets exactly one live timer under the key
    [pSid(hit._id)], armed at the time of the reply for the TTL; when that
    timer fires it asks to delete [pSid(hit._id)], the hit's id with the
    prefix put before it once more. *)
Theorem scan_timer_deletes_prefixed_id (fmt : Z -> string) (w : world)
    (e : option es_error) (l : list hit) (x : hit)
    (Hreach : reachable fmt w) (Hx : x ∈ l) :
  let r := scan_reply e (Some (Body None (Some (HitsObj (Some l))))) w in
  let key := pSid (opts w) (_id x) in
  r.1 = Normal /\
  exists h,
    live_timers r.2 key = [(h, Timer (clock w) (ttl (opts w)) (_id x))] /\
    events_since r.2 (fire h r.2) =
      [EvRequest (ClientDelete (index (opts w)) (typeName (opts w)) key)
                 (KDestroy None)].
Proof.
  intros r key. split; [done|].
  set (w1 := match e with Some err => emit (EvConsoleError err) w | None => w end).
  assert (Hr : r.2 = foldl (fun acc y => sessionTimeout (_id y) acc) w1 l)
    by reflexivity.
  assert (Hsame : same_timers w w1)
    by (subst w1; destruct e; [apply same_timers_emit | apply same_timers_refl]).
  assert (Hinv1 : timers_tracked w1).
  { eapply timers_tracked_same; [exact Hsame|]. by apply (reachable_tracked fmt). }
  assert (Ho1 : opts w1 = opts w) by apply Hsame.
  assert (Hc1 : clock w1 = clock w) by (subst w1; destruct e; by destruct w).
  destruct (foldl_sessionTimeout_live_timers l w1 Hinv1 x Hx) as [h Hh].
  destruct (foldl_sessionTimeout_frame l w1) as [Ho _].
  rewrite <- Hr in Hh, Ho. rewrite Ho1, Hc1 in Hh. rewrite Ho1 in Ho.
  fold key in Hh. exists h. split; [exact Hh|].
  assert (Hlive : (h, Timer (clock w) (ttl (opts w)) (_id x)) ∈ live_timers r.2 key)
    by (rewrite Hh; left).
  apply elem_of_live_timers in Hlive as [Hlive _].
  apply events_since_app. rewrite (fire_unfold h _ r.2 Hlive).
  unfold destroy. cbn [timer_sid].
  replace (opts (set_pending (delete h (pending r.2)) r.2)) with (opts w)
    by (rewrite <- Ho; by destruct r.2).
  fold key. by destruct r.2.
Qed.

(** ** Requests and callbacks *)

Lemma count_requests_app (l1 l2 : list event) :
  count_requests (l1 ++ l2) = (count_requests l1 + count_requests l2)%nat.
Proof.
  induction l1 as [|ev l1 IH]; [done|]. destruct ev; simpl; by rewrite IH.
Qed.

Lemma count_callbacks_app (l1 l2 : list event) :
  count_callbacks (l1 ++ l2) = (count_callbacks l1 + count_callbacks l2)%nat.
Proof.
  induction l1 as [|ev l1 IH]; [done|]. destruct ev; simpl; by rewrite IH.
Qed.

Lemma send_counts (q : request) (k : kont) (w : world) :
  count_callbacks (trace (send q k w)) = count_callbacks (trace w) /\
  count_requests (trace (send q k w)) = S (count_requests (trace w)) /\
  List.length (inflight (send q k w)) = S (List.length (inflight w)).
Proof.
  destruct w; simpl.
  rewrite count_callbacks_app, count_requests_app, length_app. simpl.
  repeat split; lia.
Qed.

Lemma callbacks_bounded_send (q : request) (k : kont) (w : world) :
  callbacks_bounded w -> callbacks_bounded (send q k w).
Proof.
  unfold callbacks_bounded. destruct (send_counts q k w) as (-> & -> & ->). lia.
Qed.

Lemma sessionTimeout_counts (sid : string) (w : world) :
  count_callbacks (trace (sessionTimeout sid w)) = count_callbacks (trace w) /\
  count_requests (trace (sessionTimeout sid w)) = count_requests (trace w).
Proof.
  rewrite sessionTimeout_trace, !count_callbacks_app, !count_requests_app.
  destruct (timeouts w !! pSid (opts w) sid); simpl; lia.
Qed.

Lemma callbacks_bounded_sessionTimeout (sid : string) (w : world) :
  callbacks_bounded w -> callbacks_bounded (sessionTimeout sid w).
Proof.
  unfold callbacks_bounded.
  destruct (sessionTimeout_counts sid w) as (-> & ->).
  by rewrite sessionTimeout_inflight.
Qed.

Lemma callbacks_bounded_foldl (l : list hit) (w : world) :
  callbacks_bounded w ->
  callbacks_bounded (foldl (fun acc x => sessionTimeout (_id x) acc) w l).
Proof.
  revert w. induction l as [|x l IH]; intros w Hinv; simpl; [done|].
  by apply IH, callbacks_bounded_sessionTimeout.
Qed.

Lemma invoke_counts (cb : callback) (args : list arg) (w : world) :
  (count_callbacks (trace (invoke cb args w)) <= S (count_callbacks (trace w)))%nat /\
  count_requests (trace (invoke cb args w)) = count_requests (trace w) /\
  inflight (invoke cb args w) = inflight w.
Proof.
  rewrite trace_invoke, count_callbacks_app, count_requests_app.
  destruct cb, w; simpl; repeat split; lia.
Qed.

(** A reply spends one request in flight: with room for one more callback
    before it, the bound holds after it. *)
Lemma callbacks_bounded_deliver (k : kont) (e : option es_error)
    (r : option body) (w : world) :
  (S (count_callbacks (trace w) + List.length (inflight w))
   <= count_requests (trace w))%nat ->
  callbacks_bounded (deliver k e r w).2.
Proof.
  intros Hroom.
  assert (Hinvoke : forall cb args, callbacks_bounded (invoke cb args w)).
  { intros cb args. unfold callbacks_bounded.
    destruct (invoke_counts cb args w) as (Hc & -> & ->). lia. }
  assert (Hw : callbacks_bounded w) by (unfold callbacks_bounded; lia).
  destruct k; simpl; try apply Hinvoke.
  - unfold get_reply.
    destruct e; [|destruct r as [b|]; [destruct (_source b)|]]; simpl;
      try destruct (minus_gt _ _ _); simpl; first [apply Hinvoke | done].
  - unfold scan_reply.
    set (w1 := match e with Some err => emit (EvConsoleError err) w | None => w end).
    assert (H1 : callbacks_bounded w1).
    { subst w1. destruct e; [|done]. unfold callbacks_bounded in *.
      destruct w; simpl in *.
      rewrite count_callbacks_app, count_requests_app. simpl. lia. }
    destruct r as [b|]; [|done].
    destruct (hits b) as [ho|]; [|done].
    destruct (hits_hits ho) as [l|]; [|done].
    simpl. by apply callbacks_bounded_foldl.
Qed.

Lemma callbacks_bounded_step (fmt : Z -> string) (a : action) (w : world) :
  callbacks_bounded w -> callbacks_bounded (step fmt a w).2.
Proof.
  intros Hinv. destruct a; simpl.
  - by apply callbacks_bounded_send.
  - unfold set. destruct (heap w !! sess); simpl; [|done].
    apply callbacks_bounded_send. by destruct w.
  - by apply callbacks_bounded_send.
  - by apply callbacks_bounded_send, callbacks_bounded_sessionTimeout.
  - unfold reply. destruct (inflight w !! i) as [[q k]|] eqn:Hi; [|done].
    destruct (es_exec fmt (docs w) q fault) as [d' [e r]].
    apply callbacks_bounded_deliver.
    pose proof (lookup_lt_Some _ _ _ Hi) as Hlt.
    unfold callbacks_bounded in Hinv. destruct w; simpl in *.
    rewrite length_delete by eauto. lia.
  - unfold fire. destruct (pending w !! h); [|done].
    apply callbacks_bounded_send. by destruct w.
  - by destruct w.
  - destruct (heap w !! l); simpl; [|done]. by destruct w.
Qed.

(** X14. In every state that a store reaches, the callbacks invoked so
    far and the requests that still await their reply are together not
    more than the client calls issued: a callback is invoked at most once
    per call, and never without its request having been sent. *)
Theorem callbacks_at_most_once (fmt : Z -> string) (w : world)
    (Hreach : reachable fmt w) :
  (count_callbacks (trace w) + List.length (inflight w)
   <= count_requests (trace w))%nat.
Proof.
  change (callbacks_bounded w).
  induction Hreach as [u now hp n d | a w _ IH].
  - unfold callbacks_bounded. simpl. lia.
  - by apply callbacks_bounded_step.
Qed.

(** ** The first version *)

Lemma invoke_args_inj (f : string) (args1 args2 : list arg) (w : world) :
  (Normal, invoke (Some f) args1 w) = (Normal, invoke (Some f) args2 w) ->
  args1 = args2.
Proof.
  intros H. apply (f_equal (fun p => trace p.2)) in H.
  destruct w; simpl in H. apply app_inv_head in H. by injection H.
Qed.

(** X18. The first version of [get] has no expiry and no error check: it
    hands the [_source] of any reply body to the callback, whatever [e]
    and whatever the age of the record, and throws when the callback is
    not a function.  Whenever the current [get] reports a record, the
    first version reports the same record. *)
Theorem legacy_get_reports_every_body (f : string) (e : option es_error)
    (r : option body) (w : world) :
  (forall b src, r = Some b -> _source b = Some src ->
     Legacy.get_reply (Some f) e r w =
       (Normal, invoke (Some f) [ANull; AObject src] w)) /\
  (forall src,
     get_reply (Some f) e r w =
       (Normal, invoke (Some f) [ANull; AObject src] w) ->
     Legacy.get_reply (Some f) e r w = get_reply (Some f) e r w) /\
  (Legacy.get_reply None e r w).1 = ThrowTypeError.
Proof.
  split; [|split].
  - intros b src -> Hsrc. unfold Legacy.get_reply. by rewrite Hsrc.
  - intros src H. rewrite H. unfold get_reply in H.
    assert (Habsent : (Normal, invoke (Some f) [] w) <>
                      (Normal, invoke (Some f) [ANull; AObject src] w)).
    { intros Heq. by apply invoke_args_inj in Heq. }
    destruct e; [done|]. destruct r as [b|]; [|done].
    destruct (_source b) as [src'|] eqn:Hsrc; [|done].
    destruct (minus_gt _ _ _); [done|].
    apply invoke_args_inj in H. injection H as ->.
    unfold Legacy.get_reply. by rewrite Hsrc.
  - unfold Legacy.get_reply. by destruct r.
Qed.

(** X19. The first version cannot write: on every store that its
    constructor builds, [set] and [destroy] throw while they read
    [this.es.index], before any call on the client; and the constructor
    itself throws when it is given no options. *)
Theorem legacy_writes_throw (u : option Legacy.user_options)
    (s : Legacy.store) (Hnew : Legacy.ESStore u = Legacy.Returned s) :
  (forall sid sess, Legacy.set s sid sess = Legacy.TypeError) /\
  (forall sid, Legacy.destroy s sid = Legacy.TypeError) /\
  Legacy.ESStore None = Legacy.TypeError.
Proof.
  destruct u as [x|]; [|done]. injection Hnew as <-. by repeat split.
Qed.

(** ** What the operations leave alone *)

(** X15. [get] only reads: after [get(id)] and its reply, with or without
    a fault, the index, the callers' objects, the timers and the map are
    as before.  An expired record is hidden, not removed. *)
Theorem get_is_read_only (fmt : Z -> string) (w : world) (sid : string)
    (cb : callback) (fault : option es_error) :
  let w' := (reply fmt (List.length (inflight w)) fault (get sid cb w)).2 in
  docs w' = docs w /\ heap w' = heap w /\ inflight w' = inflight w /\
  same_timers w w'.
Proof.
  intros w'. subst w'. unfold get. rewrite send_then_reply.
  set (q := ClientGet _ _ _).
  assert (Hd : (es_exec fmt (docs w) q fault).1 = docs w).
  { subst q. destruct fault; simpl; [done|]. by destruct (docs w !! _). }
  rewrite Hd. cbn [deliver].
  set (w0 := set_docs (docs w) (emit (EvRequest q (KGet cb)) w)).
  assert (H0 : docs w0 = docs w /\ heap w0 = heap w /\
               inflight w0 = inflight w /\ same_timers w w0)
    by (by destruct w).
  destruct H0 as (Hd0 & Hh0 & Hi0 & Hs0).
  assert (Hstep : docs (get_reply cb (es_exec fmt (docs w) q fault).2.1
                          (es_exec fmt (docs w) q fault).2.2 w0).2 = docs w0 /\
                  heap (get_reply cb (es_exec fmt (docs w) q fault).2.1
                          (es_exec fmt (docs w) q fault).2.2 w0).2 = heap w0 /\
                  inflight (get_reply cb (es_exec fmt (docs w) q fault).2.1
                          (es_exec fmt (docs w) q fault).2.2 w0).2 = inflight w0).
  { unfold get_reply.
    destruct (es_exec fmt (docs w) q fault).2.1;
      [|destruct (es_exec fmt (docs w) q fault).2.2 as [b|];
        [destruct (_source b)|]]; simpl;
      try destruct (minus_gt _ _ _); simpl; by destruct cb, w0. }
  destruct Hstep as (Hd1 & Hh1 & Hi1).
  split; [congruence|]. split; [congruence|]. split; [congruence|].
  eapply same_timers_trans; [exact Hs0 | apply same_timers_get_reply].
Qed.

Lemma es_exec_index_other (fmt : Z -> string) (d : gmap string obj)
    (ix ty key : string) (sess : obj) (fault : option es_error)
    (key2 : string) :
  key2 <> key ->
  (es_exec fmt d (ClientIndex ix ty key sess) fault).1 !! key2 = d !! key2.
Proof.
  intros Hne. destruct fault; simpl; [done|]. by rewrite lookup_insert_ne.
Qed.

Lemma es_exec_delete_other (fmt : Z -> string) (d : gmap string obj)
    (ix ty key : string) (fault : option es_error) (key2 : string) :
  key2 <> key ->
  (es_exec fmt d (ClientDelete ix ty key) fault).1 !! key2 = d !! key2.
Proof.
  intros Hne. destruct fault; simpl; [done|].
  destruct (d !! key); simpl; [by rewrite lookup_delete_ne | done].
Qed.

Lemma es_exec_update_other (fmt : Z -> string) (d : gmap string obj)
    (ix ty key : string) (sc : script) (fault : option es_error)
    (key2 : string) :
  key2 <> key ->
  (es_exec fmt d (ClientUpdate ix ty key sc) fault).1 !! key2 = d !! key2.
Proof.
  intros Hne. destruct fault; simpl; [done|].
  destruct (d !! key); simpl; [|done].
  destruct (String.eqb _ _); [|done].
  destruct (run_touch_script _ _ _); simpl; [by rewrite lookup_insert_ne | done].
Qed.

Lemma foldl_sessionTimeout_docs (l : list hit) (w : world) :
  docs (foldl (fun acc x => sessionTimeout (_id x) acc) w l) = docs w.
Proof.
  revert w. induction l as [|x l IH]; intros w; simpl; [done|].
  by rewrite IH, sessionTimeout_docs.
Qed.

Lemma deliver_docs (k : kont) (e : option es_error) (r : option body)
    (w : world) :
  docs (deliver k e r w).2 = docs w.
Proof.
  destruct k; simpl; try (by destruct cb, w).
  - unfold get_reply.
    destruct e; [|destruct r as [b|]; [destruct (_source b)|]]; simpl;
      try destruct (minus_gt _ _ _); simpl; by destruct cb, w.
  - unfold scan_reply.
    set (w1 := match e with Some err => emit (EvConsoleError err) w | None => w end).
    assert (H1 : docs w1 = docs w) by (subst w1; destruct e; by destruct w).
    destruct r as [b|]; [|done].
    destruct (hits b) as [ho|]; [|done].
    destruct (hits_hits ho) as [l|]; [|done].
    simpl. by rewrite foldl_sessionTimeout_docs.
Qed.

(** The documents after a call that sends [q], and the reply to it. *)
Lemma send_then_reply_docs (fmt : Z -> string) (q : request) (k : kont)
    (fault : option es_error) (w : world) :
  docs (reply fmt (List.length (inflight w)) fault (send q k w)).2 =
  (es_exec fmt (docs w) q fault).1.
Proof. rewrite send_then_reply, deliver_docs. by destruct w. Qed.

(** X16. A write on one id leaves the records of all other ids alone:
    after [set], [destroy] or [touch] on [sid] and the reply to it, with
    or without a fault, the index holds under the key of any other id
    what it held before. *)
Theorem writes_leave_other_records (fmt : Z -> string) (w : world)
    (sid sid2 : string) (sess : loc) (cb : callback)
    (fault : option es_error) (Hne : sid2 <> sid) :
  let n := List.length (inflight w) in
  let key2 := pSid (opts w) sid2 in
  docs (run fmt [CallSet sid sess cb; Reply n fault] w) !! key2
    = docs w !! key2 /\
  docs (run fmt [CallDestroy sid cb; Reply n fault] w) !! key2
    = docs w !! key2 /\
  docs (run fmt [CallTouch sid sess cb; Reply n fault] w) !! key2
    = docs w !! key2.
Proof.
  intros n key2. subst n.
  assert (Hkey : key2 <> pSid (opts w) sid).
  { intros Heq. by apply pSid_inj in Heq. }
  rewrite !run_cons. unfold run. cbn [foldl step snd].
  split; [|split].
  - unfold set. destruct (heap w !! sess) as [P|] eqn:HP; cbn [snd].
    + set (w0 := set_heap _ w).
      replace (List.length (inflight w)) with (List.length (inflight w0))
        by (by destruct w).
      rewrite send_then_reply_docs.
      replace (docs w0) with (docs w) by (by destruct w).
      replace (opts w0) with (opts w) by (by destruct w).
      by apply es_exec_index_other.
    + unfold reply. by rewrite lookup_ge_None_2.
  - unfold destroy. rewrite send_then_reply_docs.
    by apply es_exec_delete_other.
  - unfold touch.
    rewrite <- (sessionTimeout_inflight sid w), send_then_reply_docs.
    rewrite sessionTimeout_docs, sessionTimeout_opts.
    by apply es_exec_update_other.
Qed.

(** X17. [touch] arms its timer before it knows whether the record
    exists: on an id with no record the update is answered with
    not-found, which the callback receives, and the timer of the id is
    live all the same. *)
Theorem touch_unknown_id_arms_timer (fmt : Z -> string) (w : world)
    (sid : string) (sess : loc) (f : string)
    (Hreach : reachable fmt w)
    (Hnone : docs w !! pSid (opts w) sid = None) :
  let w1 := run fmt [CallTouch sid sess (Some f);
                     Reply (List.length (inflight w)) None] w in
  last (trace w1) = Some (EvCallback f [AError NotFound; ABody ack]) /\
  live_timers w1 (pSid (opts w) sid) =
    [(next_handle w, Timer (clock w) (ttl (opts w)) sid)].
Proof.
  intros w1. subst w1. rewrite !run_cons. unfold run. cbn [foldl step snd].
  pose proof (touch_live_timers sid sess (Some f) w
                (reachable_tracked fmt w Hreach)) as Hlive.
  unfold touch in *.
  rewrite <- (sessionTimeout_inflight sid w), send_then_reply.
  rewrite sessionTimeout_docs, sessionTimeout_opts. cbn [es_exec].
  rewrite Hnone. cbn [fst snd deliver]. unfold touch_reply.
  split.
  - rewrite trace_invoke. apply last_snoc.
  - rewrite <- Hlive. apply live_timers_same.
    set (w0 := sessionTimeout sid w).
    by destruct w0.
Qed.

(** ** The further theorems at work on the example stores *)

Lemma pSid_injective_witness : "abc" = "abc".
Proof.
  apply (proj1 (pSid_injective (extend defaults prefixed_user) "abc" "abc")).
  reflexivity.
Defined.

Lemma pSid_identity_witness : prefix (extend defaults demo_user) = "".
Proof.
  apply (proj1 (pSid_identity_iff (extend defaults demo_user) "abc")).
  reflexivity.
Defined.

(** At exactly the TTL the record is still reported. *)
Lemma get_after_set_expiry_witness :
  last (trace (run demo_toString
                 [CallSet "abc" 0%nat (Some "cb"); Reply 1 None; Tick 1000;
                  CallGet "abc" (Some "g"); Reply 1 None] demo_store)) =
  Some (EvCallback "g"
          [ANull; AObject [("user", JNum 1); ("timestamp", JNum 0)]]).
Proof.
  assert (HP : heap demo_store !! 0%nat = Some [("user", JNum 1)])
    by (vm_compute; reflexivity).
  exact (proj1 (get_after_set_expiry demo_toString demo_store "abc" 0%nat
                  [("user", JNum 1)] (Some "cb") "g" 1000%nat HP)).
Defined.

(** The scenario of the specification: set at 0, touch at 900, get at
    1500 with TTL 1000: absent. *)
Lemma touch_read_expiry_witness :
  last (trace (run demo_toString
                 [CallSet "abc" 0%nat (Some "cb"); Reply 1 None; Tick 900;
                  CallTouch "abc" 0%nat None; Reply 1 None; Tick 600;
                  CallGet "abc" (Some "g"); Reply 1 None] demo_store)) =
  Some (EvCallback "g" []).
Proof.
  assert (HP : heap demo_store !! 0%nat = Some [("user", JNum 1)])
    by (vm_compute; reflexivity).
  apply (proj1 (touch_does_not_extend_read_expiry demo_toString demo_store
                  "abc" 0%nat [("user", JNum 1)] (Some "cb") None "g"
                  900%nat 600%nat None HP)).
  vm_compute. reflexivity.
Defined.

Lemma set_replaces_witness :
  docs (run demo_toString
          [CallSet "abc" 0%nat None; Reply 1 None; Tick 5;
           CallSet "abc" 1%nat None; Reply 1 None;
           CallGet "abc" (Some "g"); Reply 1 None] two_sessions)
    !! pSid (opts two_sessions) "abc" =
  Some (set_field [("cart", JNum 2)] "timestamp"
          (JNum (clock two_sessions + Z.of_nat 5))).
Proof.
  assert (H1 : heap two_sessions !! 0%nat = Some [("user", JNum 1)])
    by (vm_compute; reflexivity).
  assert (H2 : heap two_sessions !! 1%nat = Some [("cart", JNum 2)])
    by (vm_compute; reflexivity).
  assert (Hne : 0%nat <> 1%nat) by lia.
  assert (Httl : 0 <= ttl (opts two_sessions)) by (vm_compute; discriminate).
  exact (proj2 (set_replaces_whole_record demo_toString two_sessions "abc"
                  0%nat 1%nat [("user", JNum 1)] [("cart", JNum 2)] None None
                  "g" 5%nat H1 H2 Hne Httl)).
Defined.

Lemma failed_set_witness :
  last (trace (run demo_toString
                 [CallSet "abc" 0%nat (Some "cb");
                  Reply (List.length (inflight demo_store))
                        (Some NoConnections)] demo_store)) =
  Some (EvCallback "cb" [AError NoConnections]).
Proof.
  assert (HP : heap demo_store !! 0%nat = Some [("user", JNum 1)])
    by (vm_compute; reflexivity).
  exact (proj1 (failed_set_still_stamps demo_toString demo_store "abc" 0%nat
                  [("user", JNum 1)] "cb" NoConnections HP)).
Defined.

Lemma reach_touched_twice : reachable demo_toString touched_twice.
Proof. unfold touched_twice. do 3 apply reach_step. apply reach_new. Defined.

Lemma touch_other_keys_witness :
  live_timers (touch "xyz" 0%nat None touched_twice) "abc" =
  live_timers touched_twice "abc".
Proof.
  apply (touch_leaves_other_keys demo_toString touched_twice "xyz" 0%nat None
           "abc" reach_touched_twice).
  vm_compute. discriminate.
Defined.

Lemma replaced_timer_witness :
  fire 1%nat (touch "abc" 0%nat None touched_twice) =
  touch "abc" 0%nat None touched_twice.
Proof.
  apply (replaced_timer_cannot_fire demo_toString touched_twice "abc" 0%nat
           None 1%nat reach_touched_twice).
  vm_compute. reflexivity.
Defined.

Lemma live_timers_ttl_witness :
  delay (Timer 10 1000 "abc") = ttl (opts touched_twice) /\
  armed_at (Timer 10 1000 "abc") <= clock touched_twice.
Proof.
  apply (live_timers_armed_for_ttl demo_toString touched_twice
           reach_touched_twice 1%nat).
  vm_compute. reflexivity.
Defined.

Lemma recovery_scan_witness :
  exists h,
    live_timers (reply demo_toString 0 None
                   (ESStore demo_user 0 demo_heap 0%nat cookie_docs)).2 "abc" =
      [(h, Timer 0 (ttl (extend defaults demo_user)) "abc")] /\
    events_since
      (reply demo_toString 0 None
         (ESStore demo_user 0 demo_heap 0%nat cookie_docs)).2
      (fire h (reply demo_toString 0 None
                 (ESStore demo_user 0 demo_heap 0%nat cookie_docs)).2) =
      [EvRequest (ClientDelete (index (extend defaults demo_user))
                               (typeName (extend defaults demo_user)) "abc")
                 (KDestroy None)].
Proof.
  apply (recovery_scan_without_prefix demo_toString demo_user 0 demo_heap
           0%nat cookie_docs eq_refl "abc").
  exists cookie_doc. vm_compute. reflexivity.
Defined.

Lemma scan_prefixed_witness :
  (scan_reply None
     (Some (Body None (Some (HitsObj (Some [Hit "sess:abc"])))))
     prefixed_store).1 = Normal.
Proof.
  apply (scan_timer_deletes_prefixed_id demo_toString prefixed_store None
           [Hit "sess:abc"] (Hit "sess:abc")
           (reach_new demo_toString prefixed_user 0 demo_heap 0%nat
              {[ "sess:abc" := [("user", JNum 7)] ]})).
  left.
Defined.

Lemma callbacks_once_witness :
  (count_callbacks (trace touched_twice) + List.length (inflight touched_twice)
   <= count_requests (trace touched_twice))%nat.
Proof.
  exact (callbacks_at_most_once demo_toString touched_twice
           reach_touched_twice).
Defined.

Lemma legacy_get_witness :
  Legacy.get_reply (Some "cb") (Some NotFound)
    (Some (Body (Some [("user", JNum 1)]) None)) demo_store =
  (Normal, invoke (Some "cb") [ANull; AObject [("user", JNum 1)]] demo_store).
Proof.
  apply (proj1 (legacy_get_reports_every_body "cb" (Some NotFound)
                  (Some (Body (Some [("user", JNum 1)]) None)) demo_store)
           (Body (Some [("user", JNum 1)]) None) [("user", JNum 1)]);
    reflexivity.
Defined.

Lemma legacy_writes_witness :
  Legacy.set (Legacy.Store (Legacy.merge legacy_user) None) "abc"
             [("user", JNum 1)] = Legacy.TypeError.
Proof.
  apply (proj1 (legacy_writes_throw (Some legacy_user)
                  (Legacy.Store (Legacy.merge legacy_user) None) eq_refl)).
Defined.

Lemma writes_other_records_witness :
  docs (run demo_toString
          [CallDestroy "abc" None;
           Reply (List.length (inflight prefixed_store)) None]
          prefixed_store) !! pSid (opts prefixed_store) "xyz" =
  docs prefixed_store !! pSid (opts prefixed_store) "xyz".
Proof.
  assert (Hne : "xyz" <> "abc") by discriminate.
  exact (proj1 (proj2 (writes_leave_other_records demo_toString prefixed_store
                         "abc" "xyz" 0%nat None None Hne))).
Defined.

Lemma touch_unknown_witness :
  last (trace (run demo_toString
                 [CallTouch "abc" 0%nat (Some "cb");
                  Reply (List.length (inflight demo_store)) None]
                 demo_store)) =
  Some (EvCallback "cb" [AError NotFound; ABody ack]).
Proof.
  assert (Hnone : docs demo_store !! pSid (opts demo_store) "abc" = None)
    by (vm_compute; reflexivity).
  exact (proj1 (touch_unknown_id_arms_timer demo_toString demo_store "abc"
                  0%nat "cb"
                  (reach_new demo_toString demo_user 0 demo_heap 0%nat ∅)
                  Hnone)).
Defined.

(** * The reply handlers, on the trace *)

Lemma get_reply_pinned (cb : callback) (e : option es_error)
    (r : option body) (w : world) :
  (is_Some e \/ r = None ->
   get_reply cb e r w = (Normal, invoke cb [] w)) /\
  (forall b src, r = Some b -> _source b = Some src ->
     older_than_ttl w src ->
     get_reply cb e r w = (Normal, invoke cb [] w)) /\
  (forall b src, e = None -> r = Some b -> _source b = Some src ->
     ~ older_than_ttl w src ->
     get_reply cb e r w = (Normal, invoke cb [ANull; AObject src] w)).
Proof.
  split; [|split].
  - intros [[err ->]| ->]; [done | by destruct e].
  - intros b src -> Hsrc Hold. unfold get_reply. destruct e; [done|].
    rewrite Hsrc. apply minus_gt_older in Hold. by rewrite Hold.
  - intros b src -> -> Hsrc Hnew. by apply get_reply_source.
Qed.

Lemma events_since_callback (cb : callback) (args : list arg) (w : world) :
  events_since w (invoke cb args w) = callback_events cb args.
Proof. apply events_since_invoke. Qed.

Lemma events_since_sent (q : request) (k : kont) (w w' : world)
    (evs : list event) :
  trace w' = trace (emit (EvRequest q k) w) ++ evs ->
  events_since w w' = EvRequest q k :: evs.
Proof.
  intros H. apply events_since_app. rewrite H. destruct w; simpl.
  by rewrite <- app_assoc.
Qed.

(** C1. [get(sid, cb)] issues the fetch for the prefixed key together with
    its closure.  When the reply [(e, r)] reaches that closure, it calls
    [cb()] (one invocation without arguments on the trace when [cb] is a
    function) if the client reports an error, if there is no reply body,
    or if the record's [timestamp] is older than now minus TTL; when there
    is no error and the record is not that old it calls
    [cb(null, r._source)]; no invocation carries an error value.  Against
    the index, a fetch that meets a fault or finds no document under the
    key ends in [cb()], and no reply of the index makes the closure
    throw. *)
Theorem get_reports_absent_or_source (sid : string) (cb : callback)
    (w : world) :
  let q := ClientGet (index (opts w)) (typeName (opts w))
                     (pSid (opts w) sid) in
  inflight (get sid cb w) = inflight w ++ [(q, KGet cb)] /\
  events_since w (get sid cb w) = [EvRequest q (KGet cb)] /\
  (forall e r w2,
     (is_Some e \/ r = None ->
      (deliver (KGet cb) e r w2).1 = Normal /\
      events_since w2 (deliver (KGet cb) e r w2).2 = callback_events cb []) /\
     (forall b src, r = Some b -> _source b = Some src ->
        older_than_ttl w2 src ->
        (deliver (KGet cb) e r w2).1 = Normal /\
        events_since w2 (deliver (KGet cb) e r w2).2 = callback_events cb []) /\
     (forall b src, e = None -> r = Some b -> _source b = Some src ->
        ~ older_than_ttl w2 src ->
        (deliver (KGet cb) e r w2).1 = Normal /\
        events_since w2 (deliver (KGet cb) e r w2).2 =
          callback_events cb [ANull; AObject src]) /\
     (forall b src ts, e = None -> r = Some b -> _source b = Some src ->
        get_field src "timestamp" = Some (JNum ts) ->
        events_since w2 (deliver (KGet cb) e r w2).2 =
          callback_events cb
            (if ts <? clock w2 - ttl (opts w2) then []
             else [ANull; AObject src])) /\
     (forall ev, ev ∈ events_since w2 (deliver (KGet cb) e r w2).2 ->
        passes_error ev = false)) /\
  (forall fmt fault,
     (reply fmt (List.length (inflight w)) fault (get sid cb w)).1 = Normal /\
     (is_Some fault \/ docs w !! pSid (opts w) sid = None ->
      events_since w
        (reply fmt (List.length (inflight w)) fault (get sid cb w)).2 =
        EvRequest q (KGet cb) :: callback_events cb [])).
Proof.
  intros q. split; [|split; [|split]].
  - by destruct w.
  - apply events_since_app. by destruct w.
  - intros e r w2. cbn [deliver].
    destruct (get_reply_pinned cb e r w2) as (Habs & Hold & Hnew).
    split; [|split; [|split; [|split]]].
    + intros H. rewrite (Habs H). split; [done | apply events_since_callback].
    + intros b src Hr Hsrc Ho. rewrite (Hold b src Hr Hsrc Ho).
      split; [done | apply events_since_callback].
    + intros b src He Hr Hsrc Hn. rewrite (Hnew b src He Hr Hsrc Hn).
      split; [done | apply events_since_callback].
    + intros b src ts He Hr Hsrc Hts.
      assert (Hiff : older_than_ttl w2 src <-> ts < clock w2 - ttl (opts w2)).
      { unfold older_than_ttl. by rewrite Hts. }
      destruct (Z.ltb_spec ts (clock w2 - ttl (opts w2))) as [Hlt|Hge].
      * rewrite (Hold b src Hr Hsrc (proj2 Hiff Hlt)).
        apply events_since_callback.
      * rewrite (Hnew b src He Hr Hsrc); [apply events_since_callback|].
        intros Ho. apply Hiff in Ho. lia.
    + apply get_reply_events.
  - intros fmt fault. unfold get. fold q. rewrite send_then_reply.
    split.
    + destruct fault as [err|]; cbn [es_exec fst snd deliver]; [done|].
      subst q. cbn [es_exec]. destruct (docs w !! _); cbn [fst snd deliver];
        [|done].
      unfold get_reply. cbn [_source]. by destruct (minus_gt _ _ _).
    + intros Hor.
      assert (Hout : (es_exec fmt (docs w) q fault).1 = docs w /\
                     is_Some (es_exec fmt (docs w) q fault).2.1).
      { destruct fault as [err|]; [by split; [|eexists]|].
        destruct Hor as [[? [=]]|Hnone]. subst q. cbn [es_exec].
        rewrite Hnone. by split; [|eexists]. }
      destruct Hout as [Hd He]. rewrite Hd. cbn [deliver].
      destruct (get_reply_pinned cb (es_exec fmt (docs w) q fault).2.1
                  (es_exec fmt (docs w) q fault).2.2
                  (set_docs (docs w) (emit (EvRequest q (KGet cb)) w)))
        as (Habs & _ & _).
      rewrite (Habs (or_introl He)). cbn [snd].
      apply (events_since_sent q (KGet cb)).
      rewrite trace_invoke. by destruct w.
Qed.


(** * The map of timers over time *)

Lemma timeouts_step_refl (w : world) : timeouts_step w w.
Proof.
  split; [done|]. exists []. split; [by rewrite app_nil_r|].
  intros key. split; [done | by left].
Qed.

Lemma timeouts_step_trans (w1 w2 w3 : world) :
  timeouts_step w1 w2 -> timeouts_step w2 w3 -> timeouts_step w1 w3.
Proof.
  intros (Ho1 & evs1 & Ht1 & H1) (Ho2 & evs2 & Ht2 & H2).
  split; [congruence|]. exists (evs1 ++ evs2).
  split; [by rewrite Ht2, Ht1, app_assoc|].
  intros key. destruct (H1 key) as [Hs1 Hc1], (H2 key) as [Hs2 Hc2].
  split; [auto|].
  destruct Hc2 as [Heq2|(h & sid & ms & Hin & Hkey)].
  - destruct Hc1 as [Heq1|(h & sid & ms & Hin & Hkey)].
    + left. congruence.
    + right. exists h, sid, ms. split; [|done].
      apply elem_of_app. by left.
  - right. exists h, sid, ms. split.
    + apply elem_of_app. by right.
    + by rewrite <- Ho1.
Qed.

(** A step that leaves the map and the options alone. *)
Lemma timeouts_step_quiet (w w' : world) (evs : list event) :
  timeouts w' = timeouts w -> opts w' = opts w ->
  trace w' = trace w ++ evs -> timeouts_step w w'.
Proof.
  intros Ht Ho Htr. split; [done|]. exists evs. split; [done|].
  intros key. rewrite Ht. split; [done | by left].
Qed.

Lemma timeouts_step_sessionTimeout (sid : string) (w : world) :
  timeouts_step w (sessionTimeout sid w).
Proof.
  split; [apply sessionTimeout_opts|].
  eexists. split; [apply sessionTimeout_trace|].
  intros key. rewrite sessionTimeout_timeouts.
  destruct (decide (pSid (opts w) sid = key)) as [<-|Hne].
  - rewrite lookup_insert_eq. split; [by eexists|].
    right. exists (next_handle w), sid, (ttl (opts w)). split; [|done].
    apply elem_of_app. right. left.
  - rewrite lookup_insert_ne by done. split; [done | by left].
Qed.

Lemma timeouts_step_foldl (l : list hit) (w : world) :
  timeouts_step w (foldl (fun acc x => sessionTimeout (_id x) acc) w l).
Proof.
  revert w. induction l as [|x l IH]; intros w; simpl.
  - apply timeouts_step_refl.
  - eapply timeouts_step_trans; [apply timeouts_step_sessionTimeout | apply IH].
Qed.

Lemma timeouts_step_invoke (cb : callback) (args : list arg) (w : world) :
  timeouts_step w (invoke cb args w).
Proof.
  apply (timeouts_step_quiet _ _ (callback_events cb args));
    [by destruct cb, w | by destruct cb, w | apply trace_invoke].
Qed.

Lemma timeouts_step_send (q : request) (k : kont) (w : world) :
  timeouts_step w (send q k w).
Proof.
  apply (timeouts_step_quiet _ _ [EvRequest q k]); by destruct w.
Qed.

Lemma timeouts_step_deliver (k : kont) (e : option es_error)
    (r : option body) (w : world) :
  timeouts_step w (deliver k e r w).2.
Proof.
  destruct k; simpl; try apply timeouts_step_invoke.
  - unfold get_reply.
    destruct e; [|destruct r as [b|]; [destruct (_source b)|]]; simpl;
      try destruct (minus_gt _ _ _); simpl;
      first [apply timeouts_step_invoke | apply timeouts_step_refl].
  - unfold scan_reply.
    set (w1 := match e with Some err => emit (EvConsoleError err) w | None => w end).
    assert (H1 : timeouts_step w w1).
    { subst w1. destruct e as [err|]; [|apply timeouts_step_refl].
      apply (timeouts_step_quiet _ _ [EvConsoleError err]); by destruct w. }
    destruct r as [b|]; [|done].
    destruct (hits b) as [ho|]; [|done].
    destruct (hits_hits ho) as [l|]; [|done].
    simpl. eapply timeouts_step_trans; [exact H1 | apply timeouts_step_foldl].
Qed.

Lemma timeouts_step_step (fmt : Z -> string) (a : action) (w : world) :
  timeouts_step w (step fmt a w).2.
Proof.
  destruct a; simpl.
  - apply timeouts_step_send.
  - unfold set. destruct (heap w !! sess) as [P|]; simpl;
      [|apply timeouts_step_refl].
    eapply (timeouts_step_quiet _ _ [_]); by destruct w.
  - apply timeouts_step_send.
  - unfold touch.
    eapply timeouts_step_trans;
      [apply timeouts_step_sessionTimeout | apply timeouts_step_send].
  - unfold reply. destruct (inflight w !! i) as [[q k]|];
      [|apply timeouts_step_refl].
    destruct (es_exec fmt (docs w) q fault) as [d' [e r]].
    eapply timeouts_step_trans; [|apply timeouts_step_deliver].
    apply (timeouts_step_quiet _ _ []); [by destruct w | by destruct w|].
    rewrite app_nil_r. by destruct w.
  - unfold fire. destruct (pending w !! h); [|apply timeouts_step_refl].
    eapply (timeouts_step_quiet _ _ [_]); by destruct w.
  - apply (timeouts_step_quiet _ _ []); [by destruct w | by destruct w|].
    rewrite app_nil_r. by destruct w.
  - destruct (heap w !! l); simpl; [|apply timeouts_step_refl].
    apply (timeouts_step_quiet _ _ []); [by destruct w | by destruct w|].
    rewrite app_nil_r. by destruct w.
Qed.

Lemma timeouts_step_run (fmt : Z -> string) (acts : list action) (w : world) :
  timeouts_step w (run fmt acts w).
Proof.
  revert w. induction acts as [|a acts IH]; intros w.
  - apply timeouts_step_refl.
  - change (run fmt (a :: acts) w) with (run fmt acts (step fmt a w).2).
    eapply timeouts_step_trans; [apply timeouts_step_step | apply IH].
Qed.

(** C9, as the code has it.  When a live timer of a running store fires, it
    stops being live and its closure issues the delete request for the
    storage key of the id that it was armed with, with no callback;
    [this.timeouts] is left as it is, so it still holds the handle of the
    fired timer under that key.  It keeps doing so: whatever calls,
    replies, firings and ticks follow, the key never leaves the map, and
    as long as none of them schedules a timer for an id with that key the
    entry is still the handle of the fired timer. *)
Theorem fired_timer_destroys_and_stays_mapped (fmt : Z -> string) (w : world)
    (h : handle) (t : timer)
    (Hreach : reachable fmt w) (Hlive : pending w !! h = Some t) :
  let key := pSid (opts w) (timer_sid t) in
  events_since w (fire h w) =
    [EvRequest (ClientDelete (index (opts w)) (typeName (opts w)) key)
               (KDestroy None)] /\
  pending (fire h w) !! h = None /\
  timeouts (fire h w) = timeouts w /\
  timeouts (fire h w) !! key = Some h /\
  (forall acts, is_Some (timeouts (run fmt acts (fire h w)) !! key)) /\
  (forall acts,
     (forall h' sid ms,
        EvSetTimeout h' sid ms
          ∈ events_since (fire h w) (run fmt acts (fire h w)) ->
        pSid (opts w) sid <> key) ->
     timeouts (run fmt acts (fire h w)) !! key = Some h).
Proof.
  intros key. destruct (fire_pending h w) as (Hp & Ht & Ho & _).
  assert (Hkey : timeouts (fire h w) !! key = Some h).
  { rewrite Ht. by apply (proj1 (reachable_tracked fmt w Hreach)). }
  split; [|split; [|split; [|split; [|split]]]].
  - apply events_since_app. rewrite (fire_unfold h t w Hlive). by destruct w.
  - rewrite Hp. apply lookup_delete_eq.
  - done.
  - done.
  - intros acts.
    destruct (timeouts_step_run fmt acts (fire h w)) as (_ & evs & _ & Hall).
    apply (Hall key). by eexists.
  - intros acts Hnone.
    destruct (timeouts_step_run fmt acts (fire h w)) as (_ & evs & Htr & Hall).
    destruct (Hall key) as [_ [Heq|(h' & sid & ms & Hin & Hsid)]].
    + by rewrite Heq.
    + exfalso. apply (Hnone h' sid ms).
      * by rewrite (events_since_app _ _ _ Htr).
      * by rewrite <- Ho.
Qed.

(** * The revised theorems at work on the example store *)

(** TTL 1000 ms: for the record written at 0, the closure of [get] calls
    [cb(null, record)] at time 500 and [cb()] at time 1500. *)
Lemma get_reports_witness :
  events_since (set_clock 500 demo_store)
    (deliver (KGet (Some "cb")) None (Some (Body (Some abc_record) None))
             (set_clock 500 demo_store)).2 =
    callback_events (Some "cb") [ANull; AObject abc_record] /\
  events_since (set_clock 1500 demo_store)
    (deliver (KGet (Some "cb")) None (Some (Body (Some abc_record) None))
             (set_clock 1500 demo_store)).2 =
    callback_events (Some "cb") [].
Proof.
  split.
  - refine (proj2 (proj1 (proj2 (proj2
      (proj1 (proj2 (proj2 (get_reports_absent_or_source "abc" (Some "cb")
                              demo_store)))
         None (Some (Body (Some abc_record) None))
         (set_clock 500 demo_store))))
      (Body (Some abc_record) None) abc_record eq_refl eq_refl eq_refl _)).
    intros H. vm_compute in H. discriminate H.
  - refine (proj2 (proj1 (proj2
      (proj1 (proj2 (proj2 (get_reports_absent_or_source "abc" (Some "cb")
                              demo_store)))
         None (Some (Body (Some abc_record) None))
         (set_clock 1500 demo_store)))
      (Body (Some abc_record) None) abc_record eq_refl eq_refl _)).
    vm_compute. reflexivity.
Defined.


(** Timer 0, armed by a touch on the example store, fires; a [get]
    follows. *)
Lemma fired_timer_witness :
  timeouts (run demo_toString [CallGet "abc" None]
              (fire 0%nat touched_once)) !! pSid (opts touched_once) "abc" =
  Some 0%nat.
Proof.
  assert (Hreach : reachable demo_toString touched_once).
  { unfold touched_once. apply reach_step. apply reach_new. }
  assert (Hlive : pending touched_once !! 0%nat = Some (Timer 0 1000 "abc"))
    by (vm_compute; reflexivity).
  refine (proj2 (proj2 (proj2 (proj2 (proj2
    (fired_timer_destroys_and_stays_mapped demo_toString touched_once
       0%nat (Timer 0 1000 "abc") Hreach Hlive)))))
    [CallGet "abc" None] _).
  intros h' sid ms Hin. vm_compute in Hin.
  apply elem_of_cons in Hin as [Hin|Hin]; [discriminate Hin|].
  by apply not_elem_of_nil in Hin.
Defined.
